(** * Twister Blitz: the speech matcher, the deduplicator and the round machine

  A shallow embedding of the logic of [components/VoiceInput.tsx],
  [components/GameInterface.tsx] and [services/twisterService.ts], and
  the properties of the specification proved (or refuted) on it. *)

From Stdlib Require Import NArith ZArith List Bool Lia String Ascii DecimalN.
From Stdlib Require Import PrimFloat.
From stdpp Require Import gmap list.
Import ListNotations.

(** ** JavaScript strings

  A JavaScript string is a sequence of UTF-16 code units. *)

Module Js.

Abbreviation jsstring := (list N).

(** A Rocq string literal read as a string of code units (ASCII). *)
Definition js (s : string) : jsstring :=
  List.map N_of_ascii (list_ascii_of_string s).

(** [WhiteSpace] and [LineTerminator] of ECMAScript: what
    [String.prototype.trim] removes and what [\s] matches. *)
Definition isWhiteSpace (c : N) : bool :=
  ((9 <=? c) && (c <=? 13) || (c =? 32) || (c =? 160) || (c =? 5760)
   || (8192 <=? c) && (c <=? 8202) || (c =? 8232) || (c =? 8233)
   || (c =? 8239) || (c =? 8287) || (c =? 12288) || (c =? 65279))%N.

Fixpoint trimStart (s : jsstring) : jsstring :=
  match s with
  | [] => []
  | c :: s' => if isWhiteSpace c then trimStart s' else s
  end.

Definition isEmpty (s : jsstring) : bool :=
  match s with [] => true | _ :: _ => false end.

Definition trimEnd (s : jsstring) : jsstring :=
  List.fold_right
    (fun c acc => if isWhiteSpace c && isEmpty acc then [] else c :: acc)
    [] s.

(** [s.trim()] *)
Definition trim (s : jsstring) : jsstring := trimEnd (trimStart s).

(** [String.prototype.toLowerCase], one code unit at a time.  The ASCII
    capitals, U+0130 (which lower-cases to [i] followed by U+0307) and
    U+212A KELVIN SIGN (which lower-cases to [k]) are the only code
    points whose lower case contains an ASCII character.  Every other
    entry of the Unicode case tables sends a code point above U+007F to
    code points above U+007F; the source only ever lower-cases a string
    to delete such code units right after ([normalize]), so they are
    left in place here. *)
Definition lowerUnit (c : N) : jsstring :=
  if ((65 <=? c) && (c <=? 90))%N then [(c + 32)%N]
  else if (c =? 304)%N then [105%N; 775%N]
  else if (c =? 8490)%N then [107%N]
  else [c].

Definition toLowerCase (s : jsstring) : jsstring :=
  List.flat_map lowerUnit s.

(** [s.startsWith(t)] *)
Fixpoint startsWith (s t : jsstring) : bool :=
  match t, s with
  | [], _ => true
  | _ :: _, [] => false
  | b :: t', a :: s' => (a =? b)%N && startsWith s' t'
  end.

(** [s.includes(t)]: [t] occurs in [s] at some offset. *)
Fixpoint includes (s t : jsstring) : bool :=
  startsWith s t
  || match s with
     | [] => false
     | _ :: s' => includes s' t
     end.

(** [s.split(/\s+/)]: the pieces between the maximal runs of white
    space; a run at either end leaves an empty piece there, and the
    empty string splits into one empty piece.  [inGap] says that the
    scan is inside a run, [cur] is the piece being read. *)
Fixpoint splitFrom (inGap : bool) (cur s : jsstring) : list jsstring :=
  match s with
  | [] => [cur]
  | c :: s' =>
      if isWhiteSpace c
      then if inGap then splitFrom true cur s'
           else cur :: splitFrom true [] s'
      else splitFrom false (cur ++ [c]) s'
  end.

Definition splitWhitespace (s : jsstring) : list jsstring :=
  splitFrom false [] s.

(** The decimal digits of a number, as [String(n)] prints an integer. *)
Fixpoint digits (u : Decimal.uint) : jsstring :=
  match u with
  | Decimal.Nil => []
  | Decimal.D0 u => 48%N :: digits u
  | Decimal.D1 u => 49%N :: digits u
  | Decimal.D2 u => 50%N :: digits u
  | Decimal.D3 u => 51%N :: digits u
  | Decimal.D4 u => 52%N :: digits u
  | Decimal.D5 u => 53%N :: digits u
  | Decimal.D6 u => 54%N :: digits u
  | Decimal.D7 u => 55%N :: digits u
  | Decimal.D8 u => 56%N :: digits u
  | Decimal.D9 u => 57%N :: digits u
  end.

Definition numberToString (n : N) : jsstring := digits (N.to_uint n).

End Js.

Import Js.

(** ** components/VoiceInput.tsx *)

Module VoiceInput.

(** The character class [[a-z0-9 ]] of [normalize]'s pattern. *)
Definition isCanonical (c : N) : bool :=
  ((97 <=? c) && (c <=? 122) || (48 <=? c) && (c <=? 57) || (c =? 32))%N.

(** [str.toLowerCase().replace(/[^a-z0-9 ]/g, '').trim()] *)
Definition normalize (str : jsstring) : jsstring :=
  trim (List.filter isCanonical (toLowerCase str)).

(** [s.split(/\s+/).filter(w => w.length > 0)] *)
Definition words (s : jsstring) : list jsstring :=
  List.filter (fun w => 0 <? length w) (splitWhitespace s).

(** [n >= m * 0.6] on lengths, and [a / b >= 0.6] on counts.  The source
    computes in binary64.  The literal [0.6] denotes the double nearest
    to 3/5, which lies below it by less than 2.3e-17; a product
    [m * 0.6] is rounded back to [3m/5] when that is an integer and
    otherwise stays more than 0.19 away from every integer, and a
    quotient [a / b] is rounded to that same double exactly when
    [5a = 3b] and monotonically otherwise.  For lengths and counts below
    2^50 both comparisons are therefore those of the rationals. *)
Definition atLeastSixTenths (n m : nat) : bool := 3 * m <=? 5 * n.

(** The same two comparisons as the source computes them, on binary64
    numbers; [0x1.3333333333333p-1] is the double the literal [0.6]
    denotes.  [sixTenths_binary64] below checks them against
    [atLeastSixTenths]. *)
Fixpoint toNumber (n : nat) : float :=
  match n with
  | O => 0%float
  | S k => (toNumber k + 1)%float
  end.

(** [n >= m * 0.6] *)
Definition lengthTest64 (n m : float) : bool :=
  (m * 0x1.3333333333333p-1 <=? n)%float.

(** [a / b >= 0.6] *)
Definition ratioTest64 (a b : float) : bool :=
  (0x1.3333333333333p-1 <=? a / b)%float.

(** Whether the binary64 comparisons and [atLeastSixTenths] agree on
    every pair of numbers below [bound] (the quotient, on every pair with
    a divisor that is not 0). *)
Definition sixTenthsAgree (bound : nat) : bool :=
  let numbers := List.map (fun n => (n, toNumber n)) (List.seq 0 bound) in
  List.forallb
    (fun a =>
       List.forallb
         (fun b =>
            Bool.eqb (lengthTest64 (snd a) (snd b))
                     (atLeastSixTenths (fst a) (fst b))
            && match fst b with
               | O => true
               | S _ => Bool.eqb (ratioTest64 (snd a) (snd b))
                                 (atLeastSixTenths (fst a) (fst b))
               end)
         numbers)
    numbers.

Definition wordMatches (inputWords : list jsstring) (tWord : jsstring) : bool :=
  List.existsb (fun iWord => includes iWord tWord || includes tWord iWord)
    inputWords.

(** [checkMatch], reading [normalizedTargetRef.current] as its first
    argument. *)
Definition checkMatch (normalizedTarget statement : jsstring) : bool :=
  if isEmpty normalizedTarget || isEmpty (trim statement) then false
  else
    let normalizedInput := normalize statement in
    let target := normalizedTarget in
    if includes normalizedInput target then true
    else if includes target normalizedInput
            && atLeastSixTenths (length normalizedInput) (length target)
    then true
    else
      let inputWords := words normalizedInput in
      let targetWords := words target in
      if (0 <? length inputWords) && (0 <? length targetWords)
      then
        let matchingWords :=
          List.filter (wordMatches inputWords) targetWords in
        if atLeastSixTenths (length matchingWords) (length targetWords)
        then true
        else false
      else false.

End VoiceInput.

Module Recognition.

Import VoiceInput.

(** One entry of [event.results]: the transcript of its first alternative
    and the [isFinal] flag. *)
Record SpeechRecognitionResult := {
  transcript : jsstring;
  isFinal : bool
}.

Record SpeechRecognitionEvent := {
  resultIndex : nat;
  results : list SpeechRecognitionResult
}.

(** The props [handleResult] reads.  [onMatch] is required;
    [onStatementSpoken] is optional, and [hasOnStatementSpoken] says
    whether the parent passed it. *)
Record Props := {
  hasOnStatementSpoken : bool
}.

(** The calls the handler makes on its parent, in order. *)
Inductive Call :=
| onStatementSpoken (statement : jsstring) (isMatch : bool)
| onMatch.

(** The refs and the state of the component that [handleResult] reads or
    writes. *)
Record State := {
  isMountedRef : bool;
  normalizedTargetRef : jsstring;
  processedStatementsRef : gset jsstring;
  lastProcessedTimeRef : N;
  displayTranscript : jsstring;
  matchSuccess : bool
}.

(** The locals of [handleResult] and what its loop changes. *)
Record Loop := {
  interimTranscript : jsstring;
  latestFinalStatement : jsstring;
  processed : gset jsstring;
  lastProcessed : N;
  matched : bool;
  calls : list Call
}.

(** [`${normalizedText}_${timeWindow}`] *)
Definition statementKey (normalizedText : jsstring) (timeWindow : N) : jsstring :=
  normalizedText ++ [95%N] ++ numberToString timeWindow.

(** [Math.floor(currentTime / 2000)] *)
Definition timeWindowOf (currentTime : N) : N := (currentTime / 2000)%N.

(** The body of the [for] loop of [handleResult], for one result. *)
Definition resultStep (props : Props) (normalizedTarget : jsstring)
    (currentTime : N) (l : Loop) (result : SpeechRecognitionResult) : Loop :=
  let transcriptText := trim (transcript result) in
  if isFinal result then
    let l := {| interimTranscript := interimTranscript l;
                latestFinalStatement := transcriptText;
                processed := processed l;
                lastProcessed := lastProcessed l;
                matched := matched l;
                calls := calls l |} in
    if isEmpty transcriptText then l
    else
      let normalizedText := normalize transcriptText in
      let timeWindow := timeWindowOf currentTime in
      let key := statementKey normalizedText timeWindow in
      if decide (key ∈ processed l) then l
      else
        let isMatch := checkMatch normalizedTarget transcriptText in
        {| interimTranscript := interimTranscript l;
           latestFinalStatement := latestFinalStatement l;
           processed := {[ key ]} ∪ processed l;
           lastProcessed := currentTime;
           matched := if isMatch then true else matched l;
           calls := calls l
                    ++ (if hasOnStatementSpoken props
                        then [onStatementSpoken transcriptText isMatch]
                        else [])
                    ++ (if isMatch then [onMatch] else []) |}
  else
    {| interimTranscript := interimTranscript l ++ transcriptText;
       latestFinalStatement := latestFinalStatement l;
       processed := processed l;
       lastProcessed := lastProcessed l;
       matched := matched l;
       calls := calls l |}.

(** [handleResult(event)], with [currentTime] the value [Date.now()]
    returns.  The loop runs over [event.results] from [event.resultIndex].
    The result is the new state and the calls made.  After each
    [onMatch()] the handler also sets a timeout of 500 ms that clears
    [matchSuccess]; as there is one for each [onMatch] among the calls,
    [Session.onresult] below lists it among what the component puts
    out. *)
Definition handleResult (props : Props) (st : State) (currentTime : N)
    (event : SpeechRecognitionEvent) : State * list Call :=
  if negb (isMountedRef st) then (st, [])
  else
    let l0 := {| interimTranscript := [];
                 latestFinalStatement := [];
                 processed := processedStatementsRef st;
                 lastProcessed := lastProcessedTimeRef st;
                 matched := matchSuccess st;
                 calls := [] |} in
    let l := List.fold_left
               (resultStep props (normalizedTargetRef st) currentTime)
               (List.skipn (resultIndex event) (results event)) l0 in
    let displayText :=
      if isEmpty (latestFinalStatement l) then interimTranscript l
      else latestFinalStatement l in
    ({| isMountedRef := isMountedRef st;
        normalizedTargetRef := normalizedTargetRef st;
        processedStatementsRef := processed l;
        lastProcessedTimeRef := lastProcessed l;
        displayTranscript :=
          if isEmpty displayText then displayTranscript st else displayText;
        matchSuccess := matched l |},
     calls l).

(** The component once mounted with a target phrase: the effect on
    [targetPhrase] has stored the normalized target and cleared the
    record of processed statements. *)
Definition mounted (targetPhrase : jsstring) : State :=
  {| isMountedRef := true;
     normalizedTargetRef := normalize targetPhrase;
     processedStatementsRef := ∅;
     lastProcessedTimeRef := 0%N;
     displayTranscript := [];
     matchSuccess := false |}.

(** An event that delivers one final fragment. *)
Definition finalUtterance (text : jsstring) : SpeechRecognitionEvent :=
  {| resultIndex := 0;
     results := [ {| transcript := text; isFinal := true |} ] |}.

Definition isStatementSpoken (c : Call) : bool :=
  match c with onStatementSpoken _ _ => true | onMatch => false end.

Definition isOnMatch (c : Call) : bool :=
  match c with onMatch => true | onStatementSpoken _ _ => false end.

Definition statementsSpoken (cs : list Call) : nat :=
  length (List.filter isStatementSpoken cs).

Definition matchesReported (cs : list Call) : nat :=
  length (List.filter isOnMatch cs).

End Recognition.

(** ** services/twisterService.ts *)

Module TwisterService.

(** A JSON value, as [response.json()] resolves to. *)
#[warnings="-register-all"]
Inductive Json :=
| JNull
| JBool (b : bool)
| JNumber (z : Z)
| JString (s : jsstring)
| JArray (items : list Json)
| JObject (fields : list (jsstring * Json)).

(** What the body of a response holds: text that is not JSON, on which
    [response.json()] rejects, or a JSON value. *)
Inductive Body :=
| NotJson
| Parsed (value : Json).

Record Response := {
  ok : bool;
  statusText : jsstring;
  body : Body
}.

(** How the promise of [fetch] settles. *)
Inductive FetchResult :=
| NetworkError
| Responded (response : Response).

Inductive Exception :=
| TypeError
| SyntaxError
| ApiError (message : jsstring).

(** How a promise settles. *)
Inductive Promise (A : Type) :=
| Resolved (value : A)
| Rejected (reason : Exception).

Arguments Resolved {A} value.
Arguments Rejected {A} reason.

(** The body of a [try] block: a value or the exception thrown. *)
Definition Try (A : Type) : Type := Exception + A.

Definition ret {A} (a : A) : Try A := inr a.
Definition throw {A} (e : Exception) : Try A := inl e.
Definition bind {A B} (m : Try A) (k : A -> Try B) : Try B :=
  match m with
  | inl e => inl e
  | inr a => k a
  end.

Notation "'await' x <- m ; k" := (bind m (fun x => k))
  (at level 10, x name, m at level 100, k at level 200).

Definition awaitFetch (r : FetchResult) : Try Response :=
  match r with
  | NetworkError => throw TypeError
  | Responded response => ret response
  end.

Definition awaitJson (response : Response) : Try Json :=
  match body response with
  | NotJson => throw SyntaxError
  | Parsed value => ret value
  end.

Definition fallback : Json :=
  JObject [ (js "text", JString (js "Six slippery snails slid slowly seaward."));
            (js "difficulty", JString (js "Medium"));
            (js "theme", JString (js "Nature")) ].

(** [generateTwister(difficulty)], with [fetch] the network: what the POST
    of a difficulty to [/api/generate-twister] settles to. *)
Definition generateTwister (fetch : jsstring -> FetchResult)
    (difficulty : jsstring) : Promise Json :=
  let attempt : Try Json :=
    await response <- awaitFetch (fetch difficulty);
    if negb (ok response)
    then throw (ApiError (js "API error: " ++ statusText response))
    else
      await twister <- awaitJson response;
      ret twister in
  match attempt with
  | inr twister => Resolved twister
  | inl error => Resolved fallback
  end.

(** The fields of the [TwisterChallenge] interface. *)
Definition hasField (name : jsstring) (value : Json) : bool :=
  match value with
  | JObject fields =>
      List.existsb (fun f => if decide (fst f = name) then true else false)
        fields
  | _ => false
  end.

Definition hasRequiredFields (value : Json) : bool :=
  hasField (js "text") value && hasField (js "difficulty") value
  && hasField (js "theme") value.

End TwisterService.

(** ** components/GameInterface.tsx *)

Module GameInterface.

Import TwisterService.

Definition TARGET_SCORE : N := 5.
Definition GAME_DURATION : Z := 60.

Inductive Status := idle | loading | playing | success | failed.

Definition Status_eqb (a b : Status) : bool :=
  match a, b with
  | idle, idle | loading, loading | playing, playing
  | success, success | failed, failed => true
  | _, _ => false
  end.

Inductive Difficulty := Easy | Medium | Hard.

Definition difficultyName (d : Difficulty) : jsstring :=
  match d with
  | Easy => js "Easy"
  | Medium => js "Medium"
  | Hard => js "Hard"
  end.

Record GameState := {
  status : Status;
  score : N;
  timeLeft : Z;
  currentTwister : option Json
}.

Record SpokenStatement := {
  text : jsstring;
  timestamp : Z;
  isMatch : bool
}.

(** What the timer effect captures when it starts the interval. *)
Record Timer := {
  startTime : Z;
  startValue : Z
}.

(** The component: its state, its refs, and the number of times
    [fireConfetti] has run. *)
Record Game := {
  selectedDifficulty : option Difficulty;
  gameState : GameState;
  spokenStatements : list SpokenStatement;
  timerRef : option Timer;
  confettiFiredRef : bool;
  confettiRuns : nat
}.

Definition initial : Game :=
  {| selectedDifficulty := None;
     gameState := {| status := idle; score := 0; timeLeft := GAME_DURATION;
                     currentTwister := None |};
     spokenStatements := [];
     timerRef := None;
     confettiFiredRef := false;
     confettiRuns := 0 |}.

(** *** The updaters passed to [setGameState] *)

(** A value as [currentTwister] holds it: the [null] of JSON is the
    [null] the state starts with. *)
Definition nullable (value : Json) : option Json :=
  match value with
  | JNull => None
  | _ => Some value
  end.

(** in [fetchNewTwister] *)
Definition fetchNewTwister (twister : Json) (prev : GameState) : GameState :=
  {| status := idle; score := 0; timeLeft := GAME_DURATION;
     currentTwister := nullable twister |}.

(** in the interval callback of the timer effect *)
Definition tick (newTimeLeft : Z) (prev : GameState) : GameState :=
  if negb (Status_eqb (status prev) playing) then prev
  else if (newTimeLeft =? 0)%Z then
    {| status := failed; score := score prev; timeLeft := 0;
       currentTwister := currentTwister prev |}
  else if negb (timeLeft prev =? newTimeLeft)%Z then
    {| status := status prev; score := score prev; timeLeft := newTimeLeft;
       currentTwister := currentTwister prev |}
  else prev.

(** in the win-condition effect *)
Definition win (prev : GameState) : GameState :=
  {| status := success; score := score prev; timeLeft := timeLeft prev;
     currentTwister := currentTwister prev |}.

(** in [startGame] *)
Definition startGame (prev : GameState) : GameState :=
  {| status := playing; score := 0; timeLeft := GAME_DURATION;
     currentTwister := currentTwister prev |}.

(** in [handleMatch] *)
Definition handleMatch (prev : GameState) : GameState :=
  {| status := status prev; score := (score prev + 1)%N;
     timeLeft := timeLeft prev; currentTwister := currentTwister prev |}.

(** in [retrySame] *)
Definition retrySame (prev : GameState) : GameState :=
  {| status := idle; score := 0; timeLeft := GAME_DURATION;
     currentTwister := currentTwister prev |}.

(** [Math.max(0, startValue - Math.floor((Date.now() - startTime) / 1000))] *)
Definition newTimeLeft (tm : Timer) (now : Z) : Z :=
  let elapsed := ((now - startTime tm) / 1000)%Z in
  Z.max 0 (startValue tm - elapsed).

(** *** The effects

    [commit rendered g now] runs, after a render that shows the game state
    of [g] where the one before showed [rendered], the three effects in
    the order of the source, each only when one of its dependencies has
    changed.  The win-condition effect queues [win]; the second component
    of the result says whether it did. *)
Definition commit (rendered : GameState) (g : Game) (now : Z) : Game * bool :=
  let cur := gameState g in
  let statusChanged := negb (Status_eqb (status rendered) (status cur)) in
  let scoreChanged := negb (score rendered =? score cur)%N in
  (* timer effect, on [status] *)
  let timer1 :=
    if statusChanged then
      if Status_eqb (status cur) playing
      then Some {| startTime := now; startValue := timeLeft cur |}
      else None
    else timerRef g in
  (* win-condition effect, on [score] and [status] *)
  let wins :=
    (scoreChanged || statusChanged)
    && (TARGET_SCORE <=? score cur)%N && Status_eqb (status cur) playing
    && negb (confettiFiredRef g) in
  let fired1 := if wins then true else confettiFiredRef g in
  let runs1 := if wins then S (confettiRuns g) else confettiRuns g in
  (* the effect that resets the flag, on [status] *)
  let fired2 :=
    if statusChanged && negb (Status_eqb (status cur) success)
    then false else fired1 in
  ({| selectedDifficulty := selectedDifficulty g;
      gameState := cur;
      spokenStatements := spokenStatements g;
      timerRef := timer1;
      confettiFiredRef := fired2;
      confettiRuns := runs1 |},
   wins).

Definition setGameState (f : GameState -> GameState) (g : Game) : Game :=
  {| selectedDifficulty := selectedDifficulty g;
     gameState := f (gameState g);
     spokenStatements := spokenStatements g;
     timerRef := timerRef g;
     confettiFiredRef := confettiFiredRef g;
     confettiRuns := confettiRuns g |}.

Definition setSpokenStatements
    (f : list SpokenStatement -> list SpokenStatement) (g : Game) : Game :=
  {| selectedDifficulty := selectedDifficulty g;
     gameState := gameState g;
     spokenStatements := f (spokenStatements g);
     timerRef := timerRef g;
     confettiFiredRef := confettiFiredRef g;
     confettiRuns := confettiRuns g |}.

Definition setSelectedDifficulty (d : Difficulty) (g : Game) : Game :=
  {| selectedDifficulty := Some d;
     gameState := gameState g;
     spokenStatements := spokenStatements g;
     timerRef := timerRef g;
     confettiFiredRef := confettiFiredRef g;
     confettiRuns := confettiRuns g |}.

(** A render after the handler has changed [g0] into [g]: the effects run,
    and when the win-condition effect queued [win], the render that
    follows and its effects. *)
Definition render (g0 g : Game) (now : Z) : Game :=
  let '(g1, queued) := commit (gameState g0) g now in
  if queued
  then fst (commit (gameState g1) (setGameState win g1) now)
  else g1.

(** *** The events the component reacts to *)

Inductive Event :=
| DifficultySelected (d : Difficulty) (twister : Json)
| StartClicked
| Matched
| StatementSpoken (statement : jsstring) (isMatch : bool)
| TimerFired
| RetryClicked
| NextClicked (twister : Json).

Definition hasDifficulty (g : Game) : bool :=
  match selectedDifficulty g with Some _ => true | None => false end.

(** What the render of [g] wires: the difficulty selector alone while no
    difficulty is chosen; then the start button while idle, the
    [VoiceInput] with [onMatch={handleMatch}] while playing, and the retry
    and next buttons otherwise.  The interval runs while [timerRef] holds
    it. *)
Definition wired (g : Game) (e : Event) : bool :=
  let st := status (gameState g) in
  match e with
  | DifficultySelected _ _ => negb (hasDifficulty g)
  | StartClicked => hasDifficulty g && Status_eqb st idle
  | Matched | StatementSpoken _ _ => hasDifficulty g && Status_eqb st playing
  | TimerFired => match timerRef g with Some _ => true | None => false end
  | RetryClicked | NextClicked _ =>
      hasDifficulty g && negb (Status_eqb st idle)
      && negb (Status_eqb st playing)
  end.

(** The handler of each event, before the render that follows it. *)
Definition handler (now : Z) (e : Event) (g : Game) : Game :=
  match e with
  | DifficultySelected d twister =>
      setSpokenStatements (fun _ => [])
        (setGameState (fetchNewTwister twister) (setSelectedDifficulty d g))
  | NextClicked twister =>
      setSpokenStatements (fun _ => []) (setGameState (fetchNewTwister twister) g)
  | StartClicked =>
      setSpokenStatements (fun _ => []) (setGameState startGame g)
  | Matched => setGameState handleMatch g
  | StatementSpoken statement isMatch =>
      setSpokenStatements
        (fun prev => prev ++ [ {| text := statement; timestamp := now;
                                  isMatch := isMatch |} ]) g
  | TimerFired =>
      match timerRef g with
      | Some tm => setGameState (tick (newTimeLeft tm now)) g
      | None => g
      end
  | RetryClicked =>
      setSpokenStatements (fun _ => []) (setGameState retrySame g)
  end.

(** One event, arriving when the clock reads [now]. *)
Definition step (g : Game) (now : Z) (e : Event) : Game :=
  if wired g e then render g (handler now e g) now else g.

Definition run (g : Game) (es : list (Z * Event)) : Game :=
  List.fold_left (fun g te => step g (fst te) (snd te)) es g.

(** The number of steps of a run that enter [success]. *)
Fixpoint successEntries (g : Game) (es : list (Z * Event)) : nat :=
  match es with
  | [] => 0
  | (now, e) :: es' =>
      let g' := step g now e in
      (if negb (Status_eqb (status (gameState g)) success)
          && Status_eqb (status (gameState g')) success
       then 1 else 0)
      + successEntries g' es'
  end.

(** The events of a round under way: no start, retry or new twister. *)
Definition inRound (e : Event) : bool :=
  match e with
  | Matched | StatementSpoken _ _ | TimerFired => true
  | _ => false
  end.

(** *** One event of the recognizer

    [handleResult] makes its calls on [handleStatementSpoken] and
    [handleMatch] one after the other, and the component renders once,
    after the handler has returned: the updates of all the calls of one
    event are applied before the effects run.  Each call comes with the
    reading of the clock at which it is made. *)
Definition callEvent (c : Recognition.Call) : Event :=
  match c with
  | Recognition.onStatementSpoken statement isMatch =>
      StatementSpoken statement isMatch
  | Recognition.onMatch => Matched
  end.

Definition deliver (calls : list (Z * Recognition.Call)) (g : Game) : Game :=
  List.fold_left (fun g tc => handler (fst tc) (callEvent (snd tc)) g) calls g.

Definition recognized (g : Game) (now : Z)
    (calls : list (Z * Recognition.Call)) : Game :=
  if wired g Matched then render g (deliver calls g) now else g.

(** The states the component reaches from its mount, by its own events
    and by the events of the recognizer, when every reading [now] of
    [Date.now()] satisfies [clock g now] in the state [g] in which it is
    taken. *)
Inductive reachableWith (clock : Game -> Z -> Prop) : Game -> Prop :=
| reachable_initial : reachableWith clock initial
| reachable_step g now e :
    reachableWith clock g -> clock g now ->
    reachableWith clock (step g now e)
| reachable_recognized g now calls :
    reachableWith clock g -> clock g now ->
    reachableWith clock (recognized g now calls).

(** The states reached whatever the clock reads. *)
Definition reachable : Game -> Prop := reachableWith (fun _ _ => True).

(** A reading that is not behind the one at which the running interval
    was started. *)
Definition notBehindStart (g : Game) (now : Z) : Prop :=
  forall tm, timerRef g = Some tm -> (startTime tm <= now)%Z.

End GameInterface.

(** ** components/VoiceInput.tsx: the recognition session *)

Module Session.

Import VoiceInput Recognition.

(** The statements a list of calls reports to the parent, in order. *)
Definition statementsOf (calls : list Call) : list jsstring :=
  List.flat_map
    (fun c => match c with
              | onStatementSpoken statement _ => [statement]
              | onMatch => []
              end)
    calls.

(** What a call made while the record of processed statements went from
    [before] to [after] is like: a statement reported is not blank,
    carries the verdict of [checkMatch] on the target, was not on record
    in its time window and is now. *)
Definition reported (target : jsstring) (now : N)
    (before after : gset jsstring) (c : Call) : Prop :=
  match c with
  | onStatementSpoken statement verdict =>
      verdict = checkMatch target statement
      /\ isEmpty statement = false
      /\ (statementKey (normalize statement) (timeWindowOf now) ∉ before)
      /\ (statementKey (normalize statement) (timeWindowOf now) ∈ after)
  | onMatch => True
  end.

(** The final results among those an event delivers. *)
Definition finalResults (event : SpeechRecognitionEvent)
    : list SpeechRecognitionResult :=
  List.filter isFinal (List.skipn (resultIndex event) (results event)).

(** [event.error] of the recognizer's error event. *)
Inductive ErrorCode :=
| not_allowed
| no_speech
| audio_capture
| network
| aborted
| otherCode (code : jsstring).

(** What a call of [recognition.start()] or [recognition.stop()] does. *)
Inductive EngineException := InvalidStateError | OtherException.

Inductive StartOutcome := starts | startThrows (e : EngineException).

Inductive StopOutcome := stops | stopThrows.

Record Engine := {
  onStartCall : StartOutcome;
  onStopCall : StopOutcome
}.

(** The two timeouts of 100 ms the component sets, each of which starts
    the recognizer. *)
Inductive TimerBody := restartTimer | retryTimer.

(** What the component does to the world: calls on the recognizer,
    timeouts set (those of 100 ms, and the one of 500 ms that
    [handleResult] sets after a match to clear [matchSuccess]), calls on
    the parent. *)
Inductive Output :=
| engineStart
| engineStop
| engineAbort
| setTimeout100 (body : TimerBody)
| setTimeout500
| parent (call : Call).

Record VoiceInputProps := {
  isListening : bool;
  targetPhrase : jsstring;
  callbacks : Props
}.

(** The component: what [handleResult] works on ([voice]), the state
    [isRecording] and [error], the ref [startAttemptRef], and whether
    [recognitionRef.current] holds a recognizer. *)
Record Component := {
  voice : State;
  isRecording : bool;
  startAttemptRef : bool;
  error : option jsstring;
  recognitionRef : bool
}.

Definition setVoice (v : State) (c : Component) : Component :=
  {| voice := v; isRecording := isRecording c;
     startAttemptRef := startAttemptRef c; error := error c;
     recognitionRef := recognitionRef c |}.

Definition setIsRecording (b : bool) (c : Component) : Component :=
  {| voice := voice c; isRecording := b;
     startAttemptRef := startAttemptRef c; error := error c;
     recognitionRef := recognitionRef c |}.

Definition setStartAttempt (b : bool) (c : Component) : Component :=
  {| voice := voice c; isRecording := isRecording c;
     startAttemptRef := b; error := error c;
     recognitionRef := recognitionRef c |}.

Definition setError (e : option jsstring) (c : Component) : Component :=
  {| voice := voice c; isRecording := isRecording c;
     startAttemptRef := startAttemptRef c; error := e;
     recognitionRef := recognitionRef c |}.

Definition setRecognition (b : bool) (c : Component) : Component :=
  {| voice := voice c; isRecording := isRecording c;
     startAttemptRef := startAttemptRef c; error := error c;
     recognitionRef := b |}.

(** [processedStatementsRef.current.clear(); lastProcessedTimeRef.current = 0] *)
Definition clearProcessed (v : State) : State :=
  {| isMountedRef := isMountedRef v;
     normalizedTargetRef := normalizedTargetRef v;
     processedStatementsRef := ∅;
     lastProcessedTimeRef := 0%N;
     displayTranscript := displayTranscript v;
     matchSuccess := matchSuccess v |}.

Definition setNormalizedTarget (t : jsstring) (v : State) : State :=
  {| isMountedRef := isMountedRef v;
     normalizedTargetRef := t;
     processedStatementsRef := processedStatementsRef v;
     lastProcessedTimeRef := lastProcessedTimeRef v;
     displayTranscript := displayTranscript v;
     matchSuccess := matchSuccess v |}.

Definition setMounted (b : bool) (v : State) : State :=
  {| isMountedRef := b;
     normalizedTargetRef := normalizedTargetRef v;
     processedStatementsRef := processedStatementsRef v;
     lastProcessedTimeRef := lastProcessedTimeRef v;
     displayTranscript := displayTranscript v;
     matchSuccess := matchSuccess v |}.

Definition setMatchSuccess (b : bool) (v : State) : State :=
  {| isMountedRef := isMountedRef v;
     normalizedTargetRef := normalizedTargetRef v;
     processedStatementsRef := processedStatementsRef v;
     lastProcessedTimeRef := lastProcessedTimeRef v;
     displayTranscript := displayTranscript v;
     matchSuccess := b |}.

(** The effect on [targetPhrase]. *)
Definition targetPhraseEffect (props : VoiceInputProps) (c : Component) : Component :=
  setVoice
    (clearProcessed
       (setNormalizedTarget (normalize (targetPhrase props)) (voice c)))
    c.

(** The effect on [isListening] and [isRecording]: start or stop the
    recognizer. *)
Definition listeningEffect (props : VoiceInputProps) (engine : Engine)
    (c : Component) : Component * list Output :=
  if negb (recognitionRef c) then (c, [])
  else if isListening props && negb (isRecording c) && negb (startAttemptRef c)
  then
    let c1 := setStartAttempt true (setVoice (clearProcessed (voice c)) c) in
    match onStartCall engine with
    | starts => (c1, [engineStart])
    | startThrows e =>
        let c2 := setStartAttempt false c1 in
        match e with
        | InvalidStateError => (setIsRecording true c2, [engineStart])
        | OtherException =>
            (setError
               (Some (js "Failed to start microphone. Please click START GAME again."))
               c2,
             [engineStart])
        end
    end
  else if negb (isListening props) && isRecording c
  then
    let c1 := setStartAttempt false c in
    match onStopCall engine with
    | stops => (setIsRecording false c1, [engineStop])
    | stopThrows => (c1, [engineStop])
    end
  else (c, []).

(** [recognition.onstart] *)
Definition onstart (c : Component) : Component :=
  if isMountedRef (voice c)
  then setStartAttempt false (setError None (setIsRecording true c))
  else c.

(** [recognition.onend] *)
Definition onend (props : VoiceInputProps) (c : Component)
    : Component * list Output :=
  if isMountedRef (voice c)
  then
    let c1 := setIsRecording false c in
    if isListening props && startAttemptRef c1
    then (c1, [setTimeout100 restartTimer])
    else (c1, [])
  else (c, []).

(** The timeout that [recognition.onend] sets. *)
Definition restart (props : VoiceInputProps) (engine : Engine)
    (c : Component) : Component * list Output :=
  if isListening props && isMountedRef (voice c) && recognitionRef c
  then
    match onStartCall engine with
    | starts => (c, [engineStart])
    | startThrows InvalidStateError => (c, [engineStart])
    | startThrows OtherException =>
        (if isMountedRef (voice c)
         then setError
                (Some (js "Microphone stopped. Please click START GAME again."))
                c
         else c,
         [engineStart])
    end
  else (c, []).

(** [recognition.onerror] *)
Definition onerror (code : ErrorCode) (c : Component) : Component :=
  if negb (isMountedRef (voice c)) then c
  else
    let c1 := setStartAttempt false (setIsRecording false c) in
    match code with
    | not_allowed =>
        setError
          (Some (js "Microphone permission denied. Please allow microphone access in your browser settings and refresh the page."))
          c1
    | no_speech => c1
    | audio_capture =>
        setError (Some (js "No microphone found. Please connect a microphone.")) c1
    | network =>
        setError (Some (js "Network error. Please check your connection.")) c1
    | aborted => c1
    | otherCode _ => c1
    end.

(** What the calls of [handleResult] put out: each call on the parent,
    and after [onMatch()] the timeout of 500 ms. *)
Definition outputsOf (calls : list Call) : list Output :=
  List.flat_map
    (fun c => match c with
              | onMatch => [parent onMatch; setTimeout500]
              | onStatementSpoken _ _ => [parent c]
              end)
    calls.

(** [recognition.onresult = handleResult] *)
Definition onresult (props : VoiceInputProps) (now : N)
    (event : SpeechRecognitionEvent) (c : Component)
    : Component * list Output :=
  let '(v, calls) := handleResult (callbacks props) (voice c) now event in
  (setVoice v c, outputsOf calls).

(** The timeout that [handleResult] sets after a match. *)
Definition clearMatch (c : Component) : Component :=
  if isMountedRef (voice c)
  then setVoice (setMatchSuccess false (voice c)) c
  else c.

(** Whether the error panel, with its Try Again button, is what the
    component renders. *)
Definition showsError (c : Component) : bool :=
  match error c with
  | Some message =>
      negb (isEmpty message) && negb (includes message (js "no-speech"))
  | None => false
  end.

(** The click on Try Again. *)
Definition tryAgain (props : VoiceInputProps) (c : Component)
    : Component * list Output :=
  let c1 := setError None c in
  if isListening props && recognitionRef c1
  then (setStartAttempt false c1, [setTimeout100 retryTimer])
  else (c1, []).

(** The timeout that the click on Try Again sets.  With no recognizer
    left the call throws inside the [try] and nothing is called. *)
Definition retry (c : Component) : Component * list Output :=
  let c1 := setStartAttempt true c in
  if recognitionRef c1 then (c1, [engineStart]) else (c1, []).

(** [start] and [stop] of the imperative handle. *)
Definition handleStart (engine : Engine) (c : Component)
    : Component * list Output :=
  if recognitionRef c && negb (isRecording c) && negb (startAttemptRef c)
  then
    let c1 := setStartAttempt true c in
    match onStartCall engine with
    | starts => (c1, [engineStart])
    | startThrows e =>
        let c2 := setStartAttempt false c1 in
        match e with
        | InvalidStateError => (c2, [engineStart])
        | OtherException =>
            (setError (Some (js "Failed to start microphone. Please try again.")) c2,
             [engineStart])
        end
    end
  else (c, []).

Definition handleStop (engine : Engine) (c : Component)
    : Component * list Output :=
  if recognitionRef c && isRecording c
  then
    let c1 := setStartAttempt false c in
    match onStopCall engine with
    | stops => (setIsRecording false c1, [engineStop])
    | stopThrows => (c1, [engineStop])
    end
  else (c, []).

(** The component before its first effects: the initial values of its
    state and refs. *)
Definition created : Component :=
  {| voice := {| isMountedRef := true;
                 normalizedTargetRef := [];
                 processedStatementsRef := ∅;
                 lastProcessedTimeRef := 0%N;
                 displayTranscript := [];
                 matchSuccess := false |};
     isRecording := false;
     startAttemptRef := false;
     error := None;
     recognitionRef := false |}.

(** The browser: without speech recognition, with a constructor that
    throws, or with a recognizer. *)
Inductive Browser := unsupported | constructorThrows | supported.

(** The effect that sets the recognizer up. *)
Definition initialize (browser : Browser) (c : Component) : Component :=
  match browser with
  | unsupported =>
      setError (Some (js "Browser not supported. Please use Chrome or Edge!")) c
  | constructorThrows =>
      setError
        (Some (js "Failed to initialize speech recognition. Please refresh the page."))
        c
  | supported => setRecognition true c
  end.

(** The effects of the first render, in the order of the source. *)
Definition mount (props : VoiceInputProps) (browser : Browser)
    (engine : Engine) : Component * list Output :=
  let c1 := initialize browser (targetPhraseEffect props created) in
  let '(c2, out) := listeningEffect props engine c1 in
  (setVoice (setMounted true (voice c2)) c2, out).

(** The clean-ups of the unmount: the recognizer is stopped, aborted and
    dropped, and the component marks itself unmounted. *)
Definition unmount (engine : Engine) (c : Component) : Component * list Output :=
  let out :=
    if recognitionRef c
    then match onStopCall engine with
         | stops => [engineStop; engineAbort]
         | stopThrows => [engineStop]
         end
    else [] in
  (setVoice (setMounted false (voice c)) (setRecognition false c), out).

(** What reaches the component. *)
Inductive Signal :=
| started
| ended
| failedWith (code : ErrorCode)
| result (now : N) (event : SpeechRecognitionEvent)
| timeout (body : TimerBody)
| matchTimeout
| tryAgainClicked
| startCalled
| stopCalled.

Definition handle (props : VoiceInputProps) (engine : Engine) (s : Signal)
    (c : Component) : Component * list Output :=
  match s with
  | started => (onstart c, [])
  | ended => onend props c
  | failedWith code => (onerror code c, [])
  | result now event => onresult props now event c
  | timeout restartTimer => restart props engine c
  | timeout retryTimer => retry c
  | matchTimeout => (clearMatch c, [])
  | tryAgainClicked => if showsError c then tryAgain props c else (c, [])
  | startCalled => handleStart engine c
  | stopCalled => handleStop engine c
  end.

(** The render after a handler: the effect on [isListening] and
    [isRecording] runs when [isRecording] is no longer what the render
    before showed, and once more after a run that has itself set
    [isRecording].  The props are taken not to change over the life of
    the component, as those [GameInterface] passes do not; so the effect
    that sets the recognizer up runs once, at the mount. *)
Definition afterRender (props : VoiceInputProps) (engine : Engine)
    (recordingBefore : bool) (c : Component) : Component * list Output :=
  if Bool.eqb recordingBefore (isRecording c) then (c, [])
  else
    let '(c1, out1) := listeningEffect props engine c in
    if Bool.eqb (isRecording c) (isRecording c1) then (c1, out1)
    else
      let '(c2, out2) := listeningEffect props engine c1 in
      (c2, out1 ++ out2).

(** One signal: its handler, then the render. *)
Definition react (props : VoiceInputProps) (engine : Engine) (s : Signal)
    (c : Component) : Component * list Output :=
  let '(c1, out1) := handle props engine s c in
  let '(c2, out2) := afterRender props engine (isRecording c) c1 in
  (c2, out1 ++ out2).

(** The signals that come from the recognizer, or from a timeout that
    one of its handlers sets. *)
Definition engineDriven (s : Signal) : bool :=
  match s with
  | started | ended | failedWith _ | result _ _ | timeout restartTimer
  | matchTimeout => true
  | _ => false
  end.

(** Whether an output starts the recognizer, or sets one of the timeouts
    of 100 ms that start it. *)
Definition startsOrSchedules (o : Output) : bool :=
  match o with
  | engineStart | setTimeout100 _ => true
  | _ => false
  end.

(** The timeouts of 500 ms among what the component puts out. *)
Definition matchTimeouts (out : list Output) : nat :=
  length (List.filter
            (fun o => match o with setTimeout500 => true | _ => false end)
            out).

(** The statements the parent is told of, in order. *)
Definition spoken (out : list Output) : list jsstring :=
  List.flat_map
    (fun o => match o with
              | parent (onStatementSpoken statement _) => [statement]
              | _ => []
              end)
    out.

End Session.

(** ** app/api/generate-twister/route.ts *)

Module Route.

Import TwisterService.

(** The value of a field of a JSON object; of a key that occurs twice,
    [JSON.parse] keeps the last. *)
Definition getField (name : jsstring) (value : Json) : option Json :=
  match value with
  | JObject fields =>
      option_map snd
        (List.find (fun f => if decide (fst f = name) then true else false)
           (List.rev fields))
  | _ => None
  end.

(** [const { difficulty = "Medium" } = await request.json()]: a body that
    is not JSON and the body [null] throw; a missing field takes the
    default. *)
Definition requestDifficulty (body : Body) : Try Json :=
  match body with
  | NotJson => throw SyntaxError
  | Parsed JNull => throw TypeError
  | Parsed value =>
      match getField (js "difficulty") value with
      | Some difficulty => ret difficulty
      | None => ret (JString (js "Medium"))
      end
  end.

(** How [openai.chat.completions.create] settles: it rejects, or resolves
    with the content of the first choice, if any. *)
Inductive Completion :=
| CallRejected
| Completed (content : option jsstring).

Record NextResponse := {
  statusCode : N;
  payload : Json
}.

Definition notConfigured : NextResponse :=
  {| statusCode := 500;
     payload := JObject [(js "error", JString (js "API key not configured"))] |}.

(** [POST(request)].  [OPENAI_API_KEY] is the variable of the environment
    (none when unset), [complete] the service asked with the difficulty,
    [parse] is [JSON.parse] (none when it throws). *)
Definition POST (OPENAI_API_KEY : option jsstring)
    (complete : Json -> Completion) (parse : jsstring -> option Json)
    (body : Body) : NextResponse :=
  let attempt : Try NextResponse :=
    await difficulty <- requestDifficulty body;
    if match OPENAI_API_KEY with
       | Some key => isEmpty key
       | None => true
       end
    then ret notConfigured
    else
      match complete difficulty with
      | CallRejected => throw (ApiError (js "request failed"))
      | Completed content =>
          match content with
          | Some text =>
              if isEmpty text
              then throw (ApiError (js "No response content from OpenAI"))
              else
                match parse text with
                | Some twister => ret {| statusCode := 200; payload := twister |}
                | None => throw SyntaxError
                end
          | None => throw (ApiError (js "No response content from OpenAI"))
          end
      end in
  match attempt with
  | inr response => response
  | inl error => {| statusCode := 200; payload := fallback |}
  end.

(** [!process.env.OPENAI_API_KEY] is false. *)
Definition configured (OPENAI_API_KEY : option jsstring) : bool :=
  match OPENAI_API_KEY with
  | Some key => negb (isEmpty key)
  | None => false
  end.

(** [process.env.OPENAI_API_KEY || process.env.API_KEY], the key the
    module hands to the constructor of the client. *)
Definition apiKey (OPENAI_API_KEY API_KEY : option jsstring) : option jsstring :=
  if configured OPENAI_API_KEY then OPENAI_API_KEY else API_KEY.

(** The route as the server has it.  The module builds the client with
    [new OpenAI({ apiKey })] when it is loaded, before any request is
    handed to [POST]; [OpenAI] tells whether the constructor of the
    library returns, given the key, or throws.  When it throws the module
    is not loaded and [POST] never runs: the route gives no answer of its
    own. *)
Definition route (OpenAI : option jsstring -> bool)
    (OPENAI_API_KEY API_KEY : option jsstring)
    (complete : Json -> Completion) (parse : jsstring -> option Json)
    (body : Body) : option NextResponse :=
  if OpenAI (apiKey OPENAI_API_KEY API_KEY)
  then Some (POST OPENAI_API_KEY complete parse body)
  else None.

(** The twister in the content of a completion: what [JSON.parse] makes of
    a content that is there and not empty. *)
Definition twisterIn (parse : jsstring -> option Json) (c : Completion)
    : option Json :=
  match c with
  | Completed (Some text) => if isEmpty text then None else parse text
  | _ => None
  end.

(** The request [generateTwister] posts, and the response as its [fetch]
    sees it. *)
Definition requestOf (difficulty : jsstring) : Body :=
  Parsed (JObject [(js "difficulty", JString difficulty)]).

Definition delivered (statusText : jsstring) (r : NextResponse) : FetchResult :=
  Responded {| ok := (200 <=? statusCode r)%N && (statusCode r <=? 299)%N;
               statusText := statusText;
               body := Parsed (payload r) |}.

End Route.

(** ** components/GameInterface.tsx: what the render derives *)

Module Display.

Import TwisterService Route GameInterface.

(** JavaScript's truthiness, on JSON values. *)
Definition truthy (value : Json) : bool :=
  match value with
  | JNull => false
  | JBool b => b
  | JNumber z => negb (z =? 0)%Z
  | JString s => negb (isEmpty s)
  | JArray _ | JObject _ => true
  end.

(** [gameState.currentTwister?.text || ""], the [targetPhrase] of the
    [VoiceInput] of a round. *)
Definition targetPhraseProp (g : Game) : Json :=
  match currentTwister (gameState g) with
  | Some twister =>
      match getField (js "text") twister with
      | Some text => if truthy text then text else JString []
      | None => JString []
      end
  | None => JString []
  end.

(** [spokenStatements.slice(-10)] *)
Definition lastTen (statements : list SpokenStatement) : list SpokenStatement :=
  List.skipn (length statements - 10) statements.

(** The statements the history panel lists: none unless the round is
    being played. *)
Definition shownStatements (g : Game) : list SpokenStatement :=
  if hasDifficulty g && Status_eqb (status (gameState g)) playing
     && (0 <? length (spokenStatements g))
  then lastTen (spokenStatements g)
  else [].

(** What holds of the game in each status. *)
Definition roundInvariant (g : Game) : Prop :=
  match status (gameState g) with
  | idle =>
      score (gameState g) = 0%N /\ timeLeft (gameState g) = GAME_DURATION
      /\ spokenStatements g = [] /\ timerRef g = None
      /\ confettiFiredRef g = false
  | loading => False
  | playing =>
      (score (gameState g) < TARGET_SCORE)%N /\ timerRef g <> None
      /\ confettiFiredRef g = false /\ hasDifficulty g = true
  | success =>
      (TARGET_SCORE <= score (gameState g))%N /\ timerRef g = None
      /\ confettiFiredRef g = true /\ hasDifficulty g = true
  | failed =>
      (score (gameState g) < TARGET_SCORE)%N /\ timeLeft (gameState g) = 0%Z
      /\ timerRef g = None /\ confettiFiredRef g = false
      /\ hasDifficulty g = true
  end.


(** The statements among the events of a run. *)
Definition statementEvents (es : list (Z * Event)) : nat :=
  length (List.filter
            (fun te => match snd te with
                       | StatementSpoken _ _ => true
                       | _ => false
                       end)
            es).

End Display.

(** ** The matcher as the specification words it *)

Module Spec.

Import VoiceInput.

(** The three checks of the phrase matcher on an utterance and a target
    phrase, as section 4.2 of the specification words them. *)
Definition containment (utterance target : jsstring) : bool :=
  includes (normalize utterance) (normalize target).

Definition reversePartial (utterance target : jsstring) : bool :=
  includes (normalize target) (normalize utterance)
  && atLeastSixTenths (length (normalize utterance)) (length (normalize target)).

Definition wordOverlap (utterance target : jsstring) : bool :=
  let utteranceWords := words (normalize utterance) in
  let targetWords := words (normalize target) in
  atLeastSixTenths
    (length (List.filter (wordMatches utteranceWords) targetWords))
    (length targetWords).

Definition threeChecks (utterance target : jsstring) : bool :=
  containment utterance target
  || reversePartial utterance target
  || wordOverlap utterance target.

End Spec.

Import VoiceInput Recognition TwisterService GameInterface Spec.

(** * Properties *)

(** ** Strings *)

(** Case analysis on every comparison of code units in the goal. *)
Ltac compare_units :=
  repeat match goal with
    | |- context [N.leb ?a ?b] => destruct (N.leb_spec a b)
    | |- context [N.eqb ?a ?b] => destruct (N.eqb_spec a b)
    end.

Section Trim.

Implicit Types (s p q : jsstring) (c : N).

Lemma trimStart_idem s : trimStart (trimStart s) = trimStart s.
Proof.
  induction s as [|c s IH]; simpl; [done|].
  destruct (isWhiteSpace c) eqn:Hc; [done|]. simpl. by rewrite Hc.
Qed.

Lemma trimEnd_cons c s :
  trimEnd (c :: s) =
  if isWhiteSpace c && isEmpty (trimEnd s) then [] else c :: trimEnd s.
Proof. reflexivity. Qed.

Lemma trimEnd_idem s : trimEnd (trimEnd s) = trimEnd s.
Proof.
  induction s as [|c s IH]; [done|].
  rewrite trimEnd_cons.
  destruct (isWhiteSpace c && isEmpty (trimEnd s)) eqn:Hc; [done|].
  by rewrite trimEnd_cons, IH, Hc.
Qed.

Lemma trimStart_trimEnd s : trimStart (trimEnd s) = trimEnd (trimStart s).
Proof.
  induction s as [|c s IH]; [done|].
  rewrite trimEnd_cons. cbn [trimStart].
  destruct (isWhiteSpace c) eqn:Hc; cbn [andb].
  - rewrite <- IH. destruct (trimEnd s) as [|d r]; cbn [isEmpty]; [done|].
    cbn [trimStart]. by rewrite Hc.
  - cbn [trimStart]. by rewrite Hc, trimEnd_cons, Hc.
Qed.

Lemma trim_idem s : trim (trim s) = trim s.
Proof.
  unfold trim.
  by rewrite trimStart_trimEnd, trimEnd_idem, trimStart_idem.
Qed.

Lemma trimEnd_app p q :
  trimEnd (p ++ q) =
  if isEmpty (trimEnd q) then trimEnd p else p ++ trimEnd q.
Proof.
  induction p as [|c p IH].
  - simpl. by destruct (trimEnd q).
  - rewrite <- app_comm_cons, !trimEnd_cons, IH.
    destruct (isEmpty (trimEnd q)) eqn:He; [done|].
    replace (isEmpty (p ++ trimEnd q)) with false.
    + by rewrite andb_false_r.
    + destruct p; cbn [app]; [by rewrite He|done].
Qed.

(** A trimmed string that is not empty starts with a character that is no
    white space. *)
Lemma trim_head s c r : trim s = c :: r -> isWhiteSpace c = false.
Proof.
  unfold trim. rewrite <- trimStart_trimEnd.
  generalize (trimEnd s). clear s.
  intros s. induction s as [|d s IH]; simpl; [done|].
  destruct (isWhiteSpace d) eqn:Hd; [done|]. congruence.
Qed.

End Trim.

Section Normalize.

Implicit Types (s x : jsstring) (c : N).

Lemma lowerUnit_canonical c : isCanonical c = true -> lowerUnit c = [c].
Proof.
  unfold isCanonical, lowerUnit. compare_units; cbn; intros; done || lia.
Qed.

Lemma toLowerCase_canonical s :
  Forall (fun c => isCanonical c = true) s -> toLowerCase s = s.
Proof.
  induction 1 as [|c s Hc _ IH]; [done|].
  unfold toLowerCase in *. simpl. by rewrite lowerUnit_canonical, IH.
Qed.

Lemma filter_canonical s :
  Forall (fun c => isCanonical c = true) s -> List.filter isCanonical s = s.
Proof.
  induction 1 as [|c s Hc _ IH]; [done|]. simpl. by rewrite Hc, IH.
Qed.

Lemma Forall_trimStart (P : N -> Prop) s : Forall P s -> Forall P (trimStart s).
Proof.
  induction 1 as [|c s Hc Hs IH]; simpl; [done|].
  destruct (isWhiteSpace c); [done|]. by constructor.
Qed.

Lemma Forall_trimEnd (P : N -> Prop) s : Forall P s -> Forall P (trimEnd s).
Proof.
  induction 1 as [|c s Hc Hs IH]; [done|].
  rewrite trimEnd_cons. destruct (_ && _); [done|]. by constructor.
Qed.

Lemma normalize_canonical x :
  Forall (fun c => isCanonical c = true) (normalize x).
Proof.
  unfold normalize, trim. apply Forall_trimEnd, Forall_trimStart.
  apply List.Forall_forall. intros c Hc.
  by apply List.filter_In in Hc as [_ Hc].
Qed.

End Normalize.

Section NormalizeTrim.

Implicit Types (s x : jsstring) (c : N).

Lemma strip_lower_cons c x :
  List.filter isCanonical (toLowerCase (c :: x)) =
  List.filter isCanonical (lowerUnit c)
  ++ List.filter isCanonical (toLowerCase x).
Proof. unfold toLowerCase. simpl. by rewrite List.filter_app. Qed.

(** Of a white space character, lower-casing and stripping keep the
    space and delete every other one. *)
Lemma strip_lower_whiteSpace c :
  isWhiteSpace c = true ->
  List.filter isCanonical (lowerUnit c) = if (c =? 32)%N then [c] else [].
Proof.
  unfold isWhiteSpace. intros H.
  rewrite ?orb_true_iff, ?andb_true_iff, ?N.leb_le, ?N.eqb_eq in H.
  unfold lowerUnit. compare_units; try lia; cbn;
    unfold isCanonical; compare_units; cbn; done || lia.
Qed.

Lemma trimStart_strip_lower x :
  trimStart (List.filter isCanonical (toLowerCase (trimStart x))) =
  trimStart (List.filter isCanonical (toLowerCase x)).
Proof.
  induction x as [|c x IH]; [done|]. cbn [trimStart].
  destruct (isWhiteSpace c) eqn:Hc; [|done].
  rewrite IH, (strip_lower_cons c x), (strip_lower_whiteSpace c Hc).
  destruct (N.eqb_spec c 32) as [->|_]; done.
Qed.

Lemma trimEnd_strip_lower x :
  trimEnd (List.filter isCanonical (toLowerCase (trimEnd x))) =
  trimEnd (List.filter isCanonical (toLowerCase x)).
Proof.
  induction x as [|c x IH]; [done|].
  rewrite trimEnd_cons, (strip_lower_cons c x), trimEnd_app, <- IH.
  destruct (isWhiteSpace c && isEmpty (trimEnd x)) eqn:Hc.
  - apply andb_true_iff in Hc as [Hc He].
    destruct (trimEnd x); [|discriminate]. cbn.
    rewrite (strip_lower_whiteSpace c Hc).
    destruct (N.eqb_spec c 32) as [->|_]; done.
  - by rewrite strip_lower_cons, trimEnd_app.
Qed.

(** White space around a string does not show in its normal form. *)
Lemma normalize_trim x : normalize (trim x) = normalize x.
Proof.
  unfold normalize, trim.
  rewrite <- (trimStart_trimEnd (List.filter _ _)), trimEnd_strip_lower.
  by rewrite trimStart_trimEnd, trimStart_strip_lower.
Qed.

Lemma trim_empty_normalize x : trim x = [] -> normalize x = [].
Proof. intros H. by rewrite <- normalize_trim, H. Qed.

End NormalizeTrim.

Section Includes.

Implicit Types (s t : jsstring).

Lemma startsWith_refl s : startsWith s s = true.
Proof. induction s as [|c s IH]; simpl; [done|]. by rewrite N.eqb_refl. Qed.

Lemma includes_refl s : includes s s = true.
Proof. destruct s; simpl; [done|]. by rewrite N.eqb_refl, startsWith_refl. Qed.

Lemma includes_nil s : includes s [] = true.
Proof. by destruct s. Qed.

End Includes.

Section Words.

Implicit Types (s cur : jsstring).

Lemma splitFrom_head cur s :
  exists w rest, splitFrom false cur s = (cur ++ w) :: rest.
Proof.
  revert cur. induction s as [|c s IH]; intros cur; simpl.
  - exists [], []. by rewrite app_nil_r.
  - destruct (isWhiteSpace c).
    + exists [], (splitFrom true [] s). by rewrite app_nil_r.
    + destruct (IH (cur ++ [c])) as (w & rest & ->).
      exists (c :: w), rest. by rewrite <- app_assoc.
Qed.

(** A normal form that is not empty has a first word. *)
Lemma words_normalize x :
  isEmpty (normalize x) = false -> (0 <? length (words (normalize x))) = true.
Proof.
  unfold normalize. destruct (trim _) as [|c r] eqn:Ht; [done|]. intros _.
  apply trim_head in Ht. unfold words, splitWhitespace. simpl. rewrite Ht.
  destruct (splitFrom_head [c] r) as (w & rest & ->). done.
Qed.

Lemma filter_wordMatches_nil (ws : list jsstring) :
  List.filter (wordMatches []) ws = [].
Proof. induction ws; simpl; done. Qed.

End Words.

(** ** The normalizer and the matcher *)

(** C8. The normalizer is idempotent: normalizing a normal form (lower
    case, only lowercase letters, digits and spaces, no white space at
    either end) gives it back. *)
Theorem normalize_idempotent (x : jsstring) :
  normalize (normalize x) = normalize x.
Proof.
  pose proof (normalize_canonical x) as Hc.
  unfold normalize at 1.
  rewrite (toLowerCase_canonical _ Hc), (filter_canonical _ Hc).
  unfold normalize. apply trim_idem.
Qed.

(** C1, as the specification states it, fails: with an empty target the
    first of the three checks succeeds on every utterance, and
    [checkMatch] answers false. *)
Lemma three_checks_fail_on_empty_target :
  threeChecks (js "hi") (js "") = true
  /\ checkMatch (normalize (js "")) (js "hi") = false.
Proof. split; vm_compute; reflexivity. Qed.

(** C1, amended.  When the normal form of the target is empty or the
    utterance is blank [checkMatch] answers false; for every other target
    and utterance its answer is that of the three checks taken in order,
    containment, reverse partial containment and word overlap, the first
    that succeeds deciding, and false when none does. *)
Theorem checkMatch_three_checks (target utterance : jsstring) :
  checkMatch (normalize target) utterance =
  if isEmpty (normalize target) || isEmpty (trim utterance) then false
  else threeChecks utterance target.
Proof.
  unfold checkMatch, threeChecks, containment, reversePartial, wordOverlap.
  destruct (isEmpty (normalize target)) eqn:Ht; [done|]. cbn [orb].
  destruct (isEmpty (trim utterance)); [done|].
  destruct (includes (normalize utterance) (normalize target)); [done|].
  cbn [orb].
  destruct (includes (normalize target) (normalize utterance)
            && atLeastSixTenths _ _); [done|].
  cbn [orb]. rewrite (words_normalize _ Ht), andb_true_r.
  destruct (words (normalize utterance)) as [|w ws] eqn:Hw.
  - cbn. rewrite filter_wordMatches_nil. cbn [length].
    unfold atLeastSixTenths. symmetry. apply Nat.leb_gt.
    pose proof (words_normalize _ Ht) as Hpos.
    apply Nat.ltb_lt in Hpos. lia.
  - cbn [length Nat.ltb Nat.leb].
    by destruct (atLeastSixTenths _ _).
Qed.

(** C2, as the specification states it, fails: two phrases whose normal
    forms are both empty have the same normal form and do not match. *)
Lemma equal_normal_forms_no_match :
  normalize (js "?!") = normalize (js "...")
  /\ checkMatch (normalize (js "...")) (js "?!") = false.
Proof. split; vm_compute; reflexivity. Qed.

(** C2, amended.  An utterance whose normal form is that of the target
    matches, provided that normal form is not empty. *)
Theorem checkMatch_same_normal_form (target utterance : jsstring) :
  normalize utterance = normalize target ->
  isEmpty (normalize target) = false ->
  checkMatch (normalize target) utterance = true.
Proof.
  intros Heq Hne. unfold checkMatch. rewrite Hne. cbn [orb].
  destruct (isEmpty (trim utterance)) eqn:Hu.
  - destruct (trim utterance) eqn:Htrim; [|discriminate].
    apply trim_empty_normalize in Htrim. rewrite <- Heq, Htrim in Hne.
    discriminate.
  - by rewrite Heq, includes_refl.
Qed.

Lemma checkMatch_same_normal_form_witness :
  normalize (js " red LORRY, yellow lorry! ") = normalize (js "Red lorry yellow lorry.")
  /\ isEmpty (normalize (js "Red lorry yellow lorry.")) = false
  /\ checkMatch (normalize (js "Red lorry yellow lorry."))
       (js " red LORRY, yellow lorry! ") = true.
Proof.
  split; [vm_compute; reflexivity|]. split; [vm_compute; reflexivity|].
  apply checkMatch_same_normal_form; vm_compute; reflexivity.
Defined.

(** On lengths and counts below 256 the binary64 comparisons of the
    source are the comparisons of the model. *)
Example sixTenths_binary64 : sixTenthsAgree 256 = true.
Proof. vm_compute. reflexivity. Qed.

(** The two scenarios of the specification. *)
Example truncated_prefix_does_not_match :
  checkMatch (normalize (js "Six slippery snails slid slowly seaward."))
    (js "six slippery snails") = false.
Proof. vm_compute. reflexivity. Qed.

Example padded_phrase_matches_by_words :
  containment (js "a red lorry and a yellow lorry driving")
    (js "red lorry yellow lorry") = false
  /\ checkMatch (normalize (js "red lorry yellow lorry"))
       (js "a red lorry and a yellow lorry driving") = true.
Proof. split; vm_compute; reflexivity. Qed.

(** ** The deduplicator and the result handler *)

Section Keys.

Lemma digits_inj (u v : Decimal.uint) : digits u = digits v -> u = v.
Proof.
  revert v. induction u as [|u IH|u IH|u IH|u IH|u IH|u IH|u IH|u IH|u IH|u IH];
    intros [|v|v|v|v|v|v|v|v|v|v]; simpl; intros H;
    try discriminate; try reflexivity;
    injection H as H; f_equal; by apply IH.
Qed.

Lemma numberToString_inj (n m : N) :
  numberToString n = numberToString m -> n = m.
Proof.
  unfold numberToString. intros H.
  by apply DecimalN.Unsigned.to_uint_inj, digits_inj.
Qed.

(** The keys of one text in two time windows differ. *)
Lemma statementKey_window (text : jsstring) (w1 w2 : N) :
  statementKey text w1 = statementKey text w2 -> w1 = w2.
Proof.
  unfold statementKey. intros H.
  apply List.app_inv_head in H. injection H as H.
  by apply numberToString_inj.
Qed.

End Keys.

#[local] Arguments trim : simpl never.
#[local] Arguments normalize : simpl never.
#[local] Arguments checkMatch : simpl never.
#[local] Arguments statementKey : simpl never.
#[local] Arguments timeWindowOf : simpl never.

Section HandleResult.

Implicit Types (props : Props) (st : State) (now : N) (text : jsstring).

(** A blank final fragment: nothing happens. *)
Lemma handleResult_blank props st now text :
  isMountedRef st = true ->
  isEmpty (trim text) = true ->
  handleResult props st now (finalUtterance text) = (st, []).
Proof.
  intros Hm Hb. unfold handleResult, finalUtterance. rewrite Hm.
  cbn. rewrite Hb. cbn. rewrite !Hb. cbn. destruct st; cbn in *. by subst.
Qed.

(** A final fragment whose key is on record: no call, no new key. *)
Lemma handleResult_duplicate props st now text :
  isMountedRef st = true ->
  isEmpty (trim text) = false ->
  statementKey (normalize text) (timeWindowOf now) ∈ processedStatementsRef st ->
  snd (handleResult props st now (finalUtterance text)) = []
  /\ processedStatementsRef (fst (handleResult props st now (finalUtterance text)))
     = processedStatementsRef st
  /\ isMountedRef (fst (handleResult props st now (finalUtterance text))) = true.
Proof.
  intros Hm Hb Hin. unfold handleResult, finalUtterance. rewrite Hm.
  cbn. rewrite Hb. cbn. rewrite normalize_trim.
  destruct (decide _) as [_|Hn]; [|done]. by cbn.
Qed.

(** A final fragment whose key is new: the statement is reported, with a
    match reported after it when it is one, and the key goes on record. *)
Lemma handleResult_fresh props st now text :
  isMountedRef st = true ->
  isEmpty (trim text) = false ->
  statementKey (normalize text) (timeWindowOf now) ∉ processedStatementsRef st ->
  snd (handleResult props st now (finalUtterance text))
  = (if hasOnStatementSpoken props
     then [onStatementSpoken (trim text)
             (checkMatch (normalizedTargetRef st) (trim text))]
     else [])
    ++ (if checkMatch (normalizedTargetRef st) (trim text) then [onMatch] else [])
  /\ processedStatementsRef (fst (handleResult props st now (finalUtterance text)))
     = {[ statementKey (normalize text) (timeWindowOf now) ]}
       ∪ processedStatementsRef st
  /\ isMountedRef (fst (handleResult props st now (finalUtterance text))) = true.
Proof.
  intros Hm Hb Hin. unfold handleResult, finalUtterance. rewrite Hm.
  cbn. rewrite Hb. cbn. rewrite normalize_trim.
  destruct (decide _) as [Hn|_]; [done|]. by cbn.
Qed.

End HandleResult.

Lemma statementsSpoken_fresh (listener : bool) (t : jsstring) (m : bool) :
  statementsSpoken
    ((if listener then [onStatementSpoken t m] else [])
     ++ (if m then [onMatch] else []))
  = if listener then 1 else 0.
Proof. by destruct listener, m. Qed.

Lemma matchesReported_fresh (listener : bool) (t : jsstring) (m : bool) :
  matchesReported
    ((if listener then [onStatementSpoken t m] else [])
     ++ (if m then [onMatch] else []))
  = if m then 1 else 0.
Proof. by destruct listener, m. Qed.

(** C3, as the specification states it, fails: of a blank utterance
    delivered twice in one bucket, neither delivery is reported. *)
Lemma blank_utterance_never_reported :
  let props := {| hasOnStatementSpoken := true |} in
  let st := mounted (js "red lorry yellow lorry") in
  let first := handleResult props st 1000 (finalUtterance (js "  ")) in
  let second := handleResult props (fst first) 1500 (finalUtterance (js "  ")) in
  timeWindowOf 1500 = timeWindowOf 1000
  /\ statementsSpoken (snd first ++ snd second) = 0.
Proof. split; vm_compute; reflexivity. Qed.

(** C3, amended.  Take a final utterance that is not blank, delivered
    with the [onStatementSpoken] listener in place and its key not yet on
    record.  It is reported.  A second final utterance with the same
    normal form arriving in the same 2-second bucket is not processed: the
    two deliveries make exactly one [onStatementSpoken] call and at most
    one [onMatch] call.  A further one that is not blank, arriving in a
    later bucket whose key is not on record, is processed again and makes
    a second [onStatementSpoken] call. *)
Theorem duplicate_processed_once_per_bucket
    (props : Props) (st : State) (text text' text'' : jsstring) (t1 t2 t3 : N) :
  isMountedRef st = true ->
  hasOnStatementSpoken props = true ->
  isEmpty (trim text) = false ->
  normalize text' = normalize text ->
  normalize text'' = normalize text ->
  isEmpty (trim text'') = false ->
  timeWindowOf t2 = timeWindowOf t1 ->
  (timeWindowOf t1 < timeWindowOf t3)%N ->
  statementKey (normalize text) (timeWindowOf t1) ∉ processedStatementsRef st ->
  statementKey (normalize text) (timeWindowOf t3) ∉ processedStatementsRef st ->
  let first := handleResult props st t1 (finalUtterance text) in
  let second := handleResult props (fst first) t2 (finalUtterance text') in
  let third := handleResult props (fst second) t3 (finalUtterance text'') in
  statementsSpoken (snd first) = 1
  /\ snd second = []
  /\ statementsSpoken (snd first ++ snd second) = 1
  /\ matchesReported (snd first ++ snd second) <= 1
  /\ statementsSpoken (snd third) = 1
  /\ statementsSpoken (snd first ++ snd second ++ snd third) = 2.
Proof.
  intros Hm Hl Hb H' H'' Hb'' Hw Hlt Hk1 Hk3 first second third.
  destruct (handleResult_fresh props st t1 text Hm Hb Hk1) as (Hc1 & Hp1 & Hm1).
  fold first in Hc1, Hp1, Hm1.
  assert (Hin2 : statementKey (normalize text') (timeWindowOf t2)
                 ∈ processedStatementsRef (fst first)).
  { rewrite Hp1, H', Hw. by apply elem_of_union_l, elem_of_singleton. }
  assert (Hsecond : snd second = []
                    /\ processedStatementsRef (fst second)
                       = processedStatementsRef (fst first)
                    /\ isMountedRef (fst second) = true).
  { destruct (isEmpty (trim text')) eqn:Hb'.
    - subst second. rewrite (handleResult_blank _ _ _ _ Hm1 Hb'). done.
    - apply (handleResult_duplicate props (fst first) t2 text' Hm1 Hb' Hin2). }
  destruct Hsecond as (Hc2 & Hp2 & Hm2).
  assert (Hk3' : statementKey (normalize text'') (timeWindowOf t3)
                 ∉ processedStatementsRef (fst second)).
  { rewrite Hp2, Hp1, H''. intros [Heq|Hin]%elem_of_union; [|done].
    apply elem_of_singleton in Heq. apply statementKey_window in Heq. lia. }
  destruct (handleResult_fresh props (fst second) t3 text'' Hm2 Hb'' Hk3')
    as (Hc3 & _ & _).
  fold third in Hc3.
  rewrite Hc2, Hc3, Hc1, app_nil_r, Hl.
  unfold statementsSpoken, matchesReported.
  rewrite !List.filter_app, !length_app.
  destruct (checkMatch (normalizedTargetRef st) (trim text)),
    (checkMatch (normalizedTargetRef (fst second)) (trim text''));
    cbn; repeat split; lia.
Qed.

Lemma duplicate_processed_once_per_bucket_witness :
  let props := {| hasOnStatementSpoken := true |} in
  let st := mounted (js "red lorry yellow lorry") in
  let first := handleResult props st 1000 (finalUtterance (js "Red lorry, yellow lorry")) in
  let second := handleResult props (fst first) 1999 (finalUtterance (js "red lorry yellow lorry!")) in
  let third := handleResult props (fst second) 2000 (finalUtterance (js "red lorry yellow lorry")) in
  statementsSpoken (snd first) = 1
  /\ snd second = []
  /\ statementsSpoken (snd first ++ snd second) = 1
  /\ matchesReported (snd first ++ snd second) <= 1
  /\ statementsSpoken (snd third) = 1
  /\ statementsSpoken (snd first ++ snd second ++ snd third) = 2.
Proof.
  apply (duplicate_processed_once_per_bucket
           {| hasOnStatementSpoken := true |}
           (mounted (js "red lorry yellow lorry"))
           (js "Red lorry, yellow lorry") (js "red lorry yellow lorry!")
           (js "red lorry yellow lorry") 1000%N 1999%N 2000%N).
  - reflexivity.
  - reflexivity.
  - vm_compute. reflexivity.
  - vm_compute. reflexivity.
  - vm_compute. reflexivity.
  - vm_compute. reflexivity.
  - vm_compute. reflexivity.
  - vm_compute. reflexivity.
  - apply not_elem_of_empty.
  - apply not_elem_of_empty.
Defined.

(** C9. A final fragment whose transcript trims to the empty string is
    dropped: the loop of the handler makes no call for it (neither
    [onStatementSpoken] nor [onMatch]), records no key and leaves the time
    of the last processed statement and the match flag as they were; an
    event that delivers only such a fragment leaves the component as it
    was and makes no call. *)
Theorem blank_final_fragment_dropped
    (props : Props) (target : jsstring) (now : N) (l : Loop)
    (r : SpeechRecognitionResult) (st : State) :
  isFinal r = true ->
  isEmpty (trim (transcript r)) = true ->
  calls (resultStep props target now l r) = calls l
  /\ processed (resultStep props target now l r) = processed l
  /\ lastProcessed (resultStep props target now l r) = lastProcessed l
  /\ matched (resultStep props target now l r) = matched l
  /\ handleResult props st now {| resultIndex := 0; results := [r] |} = (st, []).
Proof.
  intros Hf Hb. unfold resultStep. rewrite Hf, Hb. cbn.
  repeat split.
  destruct (isMountedRef st) eqn:Hm.
  - destruct r as [text final]. cbn in Hf, Hb. subst final.
    by apply handleResult_blank.
  - unfold handleResult. by rewrite Hm.
Qed.

Lemma blank_final_fragment_dropped_witness :
  let props := {| hasOnStatementSpoken := true |} in
  let st := mounted (js "red lorry yellow lorry") in
  let l := {| interimTranscript := []; latestFinalStatement := [];
              processed := ∅; lastProcessed := 0%N; matched := false;
              calls := [] |} in
  let r := {| transcript := js "   "; isFinal := true |} in
  calls (resultStep props (normalizedTargetRef st) 1000 l r) = []
  /\ processed (resultStep props (normalizedTargetRef st) 1000 l r) = ∅
  /\ lastProcessed (resultStep props (normalizedTargetRef st) 1000 l r) = 0%N
  /\ matched (resultStep props (normalizedTargetRef st) 1000 l r) = false
  /\ handleResult props st 1000 {| resultIndex := 0; results := [r] |} = (st, []).
Proof.
  intros props st l r.
  apply (blank_final_fragment_dropped props (normalizedTargetRef st) 1000%N l r st).
  - reflexivity.
  - vm_compute. reflexivity.
Defined.

(** ** The twister service *)

(** C7, as the specification states it, fails: a response that is ok and
    carries a JSON object without the required fields is handed on as it
    is, not replaced by the fallback. *)
Lemma malformed_response_handed_on :
  let twister := JObject [(js "text", JString (js "She sells sea shells."))] in
  let response := {| ok := true; statusText := js "OK"; body := Parsed twister |} in
  hasRequiredFields twister = false
  /\ generateTwister (fun _ => Responded response) (js "Medium") = Resolved twister
  /\ generateTwister (fun _ => Responded response) (js "Medium") <> Resolved fallback.
Proof.
  split; [vm_compute; reflexivity|]. split; [reflexivity|].
  cbn. discriminate.
Qed.

(** C7, amended.  [generateTwister] never rejects.  On a network error,
    on a response that is not ok and on a body that is not JSON it
    resolves to the fallback twister; the JSON value of an ok response it
    resolves to as it is, whatever its fields. *)
Theorem generateTwister_never_rejects
    (fetch : jsstring -> FetchResult) (difficulty : jsstring) :
  (exists twister, generateTwister fetch difficulty = Resolved twister)
  /\ (fetch difficulty = NetworkError ->
      generateTwister fetch difficulty = Resolved fallback)
  /\ (forall response,
        fetch difficulty = Responded response ->
        ok response = false \/ body response = NotJson ->
        generateTwister fetch difficulty = Resolved fallback)
  /\ (forall response value,
        fetch difficulty = Responded response ->
        ok response = true -> body response = Parsed value ->
        generateTwister fetch difficulty = Resolved value).
Proof.
  unfold generateTwister, awaitFetch, awaitJson, bind, throw, ret.
  split; [|split; [|split]].
  - destruct (fetch difficulty) as [|response]; [by eexists|].
    destruct (ok response); cbn; [|by eexists].
    destruct (body response); by eexists.
  - by intros ->.
  - intros response -> [Hok|Hbody].
    + by rewrite Hok.
    + destruct (ok response); [|done]. cbn. by rewrite Hbody.
  - intros response value -> Hok Hbody. by rewrite Hok, Hbody.
Qed.

Lemma generateTwister_never_rejects_witness :
  let down := fun _ : jsstring => NetworkError in
  let refused := {| ok := false; statusText := js "Internal Server Error";
                    body := Parsed (JObject [(js "error", JString (js "API key not configured"))]) |} in
  let served := {| ok := true; statusText := js "OK"; body := Parsed fallback |} in
  generateTwister down (js "Hard") = Resolved fallback
  /\ generateTwister (fun _ => Responded refused) (js "Hard") = Resolved fallback
  /\ generateTwister (fun _ => Responded served) (js "Hard") = Resolved fallback.
Proof.
  intros down refused served. split; [|split].
  - destruct (generateTwister_never_rejects down (js "Hard")) as (_ & Hnet & _).
    apply Hnet. reflexivity.
  - destruct (generateTwister_never_rejects (fun _ => Responded refused) (js "Hard"))
      as (_ & _ & Hbad & _).
    apply (Hbad refused); [reflexivity|left; reflexivity].
  - destruct (generateTwister_never_rejects (fun _ => Responded served) (js "Hard"))
      as (_ & _ & _ & Hgood).
    apply (Hgood served fallback); reflexivity.
Defined.

(** ** The round machine *)

Section Round.

Implicit Types (g : Game) (prev : GameState) (e : Event) (now : Z).

Lemma Status_eqb_eq (a b : Status) : Status_eqb a b = true <-> a = b.
Proof. by destruct a, b. Qed.

Lemma Status_eqb_refl (a : Status) : Status_eqb a a = true.
Proof. by destruct a. Qed.

Lemma Status_eqb_neq (a b : Status) : Status_eqb a b = false <-> a <> b.
Proof. by destruct a, b. Qed.

(** A render changes neither the score nor the time left. *)
Lemma score_render g0 g now :
  score (gameState (render g0 g now)) = score (gameState g).
Proof. unfold render, commit. cbn. by destruct (_ && _). Qed.

Lemma timeLeft_render g0 g now :
  timeLeft (gameState (render g0 g now)) = timeLeft (gameState g).
Proof. unfold render, commit. cbn. by destruct (_ && _). Qed.

(** The status after a render is the one before, or [success]. *)
Lemma status_render g0 g now :
  status (gameState (render g0 g now)) = status (gameState g)
  \/ status (gameState (render g0 g now)) = success.
Proof. unfold render, commit. cbn. destruct (_ && _); cbn; auto. Qed.

(** The interval a render leaves running is the one that ran before, or
    one that starts from the time left on display. *)
Lemma timerRef_render g0 g now tm :
  timerRef (render g0 g now) = Some tm ->
  timerRef g = Some tm \/ startValue tm = timeLeft (gameState g).
Proof.
  unfold render, commit. cbn.
  destruct (_ && _) eqn:Hw; cbn.
  - rewrite !andb_true_iff in Hw. destruct Hw as [[[_ _] Hp] _].
    apply Status_eqb_eq in Hp. rewrite Hp. cbn. discriminate.
  - destruct (negb (Status_eqb _ _)); [|auto].
    destruct (Status_eqb _ playing); [|discriminate].
    intros [= <-]. auto.
Qed.

Lemma selectedDifficulty_render g0 g now :
  selectedDifficulty (render g0 g now) = selectedDifficulty g.
Proof. unfold render, commit. cbn. by destruct (_ && _). Qed.

(** A render after a handler that left the game state alone changes
    nothing of it. *)
Lemma gameState_render_same g0 g now :
  gameState g = gameState g0 ->
  gameState (render g0 g now) = gameState g.
Proof.
  intros H. unfold render, commit. rewrite H. cbn.
  by rewrite Status_eqb_refl, N.eqb_refl.
Qed.

Lemma tick_not_playing z prev : status prev <> playing -> tick z prev = prev.
Proof. intros H. unfold tick. by apply Status_eqb_neq in H as ->. Qed.

(** Outside [playing], the events of a round leave the game state as it
    is. *)
Lemma step_frozen g now e :
  status (gameState g) <> playing -> inRound e = true ->
  gameState (step g now e) = gameState g.
Proof.
  intros Hs He. unfold step. destruct (wired g e) eqn:Hw; [|done].
  destruct e; try discriminate; cbn in Hw.
  - apply andb_true_iff in Hw as [_ Hw]. by apply Status_eqb_eq in Hw.
  - apply andb_true_iff in Hw as [_ Hw]. by apply Status_eqb_eq in Hw.
  - cbn [handler]. destruct (timerRef g) as [tm|]; [|done].
    rewrite gameState_render_same; cbn [setGameState gameState];
      by rewrite tick_not_playing.
Qed.

Lemma run_cons g now e (es : list (Z * Event)) :
  run g ((now, e) :: es) = run (step g now e) es.
Proof. reflexivity. Qed.

Lemma run_app g (es es' : list (Z * Event)) :
  run g (es ++ es') = run (run g es) es'.
Proof. unfold run. apply List.fold_left_app. Qed.

Lemma run_frozen g (es : list (Z * Event)) :
  status (gameState g) <> playing ->
  Forall (fun te => inRound (snd te) = true) es ->
  gameState (run g es) = gameState g.
Proof.
  intros Hs Hes. revert g Hs.
  induction Hes as [|[now e] es He _ IH]; intros g Hs; [done|].
  rewrite run_cons, IH.
  - by apply step_frozen.
  - by rewrite step_frozen.
Qed.

(** A run of round events enters [success] once if it ends there without
    having begun there, and never otherwise. *)
Lemma successEntries_round (es : list (Z * Event)) g :
  Forall (fun te => inRound (snd te) = true) es ->
  successEntries g es =
  if Status_eqb (status (gameState g)) success then 0
  else if Status_eqb (status (gameState (run g es))) success then 1 else 0.
Proof.
  intros Hes. revert g.
  induction Hes as [|[now e] es He Hes IH]; intros g.
  - cbn. by destruct (Status_eqb _ _).
  - rewrite run_cons. cbn [successEntries]. rewrite IH.
    destruct (Status_eqb (status (gameState g)) success) eqn:Hg.
    + apply Status_eqb_eq in Hg.
      rewrite (step_frozen g now e), Hg by (done || congruence). done.
    + cbn [negb andb].
      destruct (Status_eqb (status (gameState (step g now e))) success) eqn:Hg';
        [|done].
      apply Status_eqb_eq in Hg'.
      rewrite run_frozen, Hg' by (done || congruence). done.
Qed.

End Round.

Section Rounds.

Implicit Types (g : Game) (e : Event) (now start : Z).

(** The state a click on the start button leaves. *)
Lemma step_start g start :
  wired g StartClicked = true ->
  hasDifficulty (step g start StartClicked) = true
  /\ status (gameState (step g start StartClicked)) = playing
  /\ score (gameState (step g start StartClicked)) = 0%N
  /\ timeLeft (gameState (step g start StartClicked)) = GAME_DURATION
  /\ timerRef (step g start StartClicked)
     = Some {| startTime := start; startValue := GAME_DURATION |}
  /\ confettiFiredRef (step g start StartClicked) = false
  /\ confettiRuns (step g start StartClicked) = confettiRuns g.
Proof.
  intros Hw. unfold step. rewrite Hw.
  destruct g as [d [s sc tl tw] sp tm fl cr]. cbn in Hw.
  apply andb_true_iff in Hw as [Hd Hs]. apply Status_eqb_eq in Hs. subst s.
  unfold hasDifficulty in *. cbn in Hd |- *.
  by destruct (sc =? 0)%N, d.
Qed.

(** A match while playing: one point more, and [success] at the target
    score, with the confetti fired once. *)
Lemma step_matched g now :
  hasDifficulty g = true ->
  status (gameState g) = playing ->
  confettiFiredRef g = false ->
  hasDifficulty (step g now Matched) = true
  /\ score (gameState (step g now Matched)) = (score (gameState g) + 1)%N
  /\ status (gameState (step g now Matched))
     = (if (TARGET_SCORE <=? score (gameState g) + 1)%N then success else playing)
  /\ confettiFiredRef (step g now Matched)
     = (TARGET_SCORE <=? score (gameState g) + 1)%N
  /\ confettiRuns (step g now Matched)
     = (if (TARGET_SCORE <=? score (gameState g) + 1)%N
        then S (confettiRuns g) else confettiRuns g).
Proof.
  destruct g as [d [s sc tl tw] sp tm fl cr]. unfold hasDifficulty. cbn.
  intros Hd -> ->. destruct d as [d|]; [clear Hd|discriminate].
  unfold step, wired, hasDifficulty, render, commit. cbn.
  destruct (N.eqb_spec sc (sc + 1)) as [Heq|_]; [lia|]. cbn.
  destruct (TARGET_SCORE <=? sc + 1)%N; cbn; by rewrite ?N.eqb_refl.
Qed.

(** A match outside [playing] reaches no handler. *)
Lemma step_matched_not_playing g now :
  status (gameState g) <> playing -> step g now Matched = g.
Proof.
  intros Hs. unfold step, wired.
  apply Status_eqb_neq in Hs as ->. by rewrite andb_false_r.
Qed.

Lemma run_matched_not_playing g (ts : list Z) :
  status (gameState g) <> playing ->
  run g (List.map (fun t => (t, Matched)) ts) = g.
Proof.
  intros Hs. induction ts as [|t ts IH]; [done|].
  cbn [List.map]. by rewrite run_cons, step_matched_not_playing.
Qed.

Lemma inRound_matches (ts : list Z) :
  Forall (fun te : Z * Event => inRound (snd te) = true)
    (List.map (fun t => (t, Matched)) ts).
Proof. induction ts; cbn [List.map]; by constructor. Qed.

(** Evaluates the comparisons of a known score with the target. *)
Ltac reach_target :=
  repeat match goal with
    | H : context [(TARGET_SCORE <=? ?n)%N] |- _ =>
        let b := eval vm_compute in (TARGET_SCORE <=? n)%N in
        change (TARGET_SCORE <=? n)%N with b in H; cbn beta iota in H
    end.

(** C4. After a click on start, a run of round events (matches,
    statements, timer ticks) enters [success] at most once, and exactly
    once when it ends there; with the target score 5, five matches
    delivered while playing end in [success], entered once with the
    confetti fired once, however many more matches are delivered after
    them. *)
Theorem success_entered_once g start :
  wired g StartClicked = true ->
  (forall es : list (Z * Event),
     Forall (fun te => inRound (snd te) = true) es ->
     successEntries (step g start StartClicked) es
     = (if Status_eqb (status (gameState (run (step g start StartClicked) es))) success
        then 1 else 0)
     /\ successEntries (step g start StartClicked) es <= 1)
  /\ (forall ts : list Z,
        5 <= length ts ->
        status (gameState (run (step g start StartClicked)
                             (List.map (fun t => (t, Matched)) ts))) = success
        /\ score (gameState (run (step g start StartClicked)
                               (List.map (fun t => (t, Matched)) ts))) = TARGET_SCORE
        /\ successEntries (step g start StartClicked)
             (List.map (fun t => (t, Matched)) ts) = 1
        /\ confettiRuns (run (step g start StartClicked)
                           (List.map (fun t => (t, Matched)) ts))
           = S (confettiRuns g)).
Proof.
  intros Hw.
  destruct (step_start g start Hw) as (Hd & Hs & Hsc & _ & _ & Hf & Hr).
  set (g0 := step g start StartClicked) in *.
  assert (Hround : forall es : list (Z * Event),
             Forall (fun te => inRound (snd te) = true) es ->
             successEntries g0 es
             = if Status_eqb (status (gameState (run g0 es))) success
               then 1 else 0).
  { intros es Hes. by rewrite (successEntries_round es g0 Hes), Hs. }
  split.
  - intros es Hes. rewrite (Hround es Hes). split; [done|].
    destruct (Status_eqb _ _); lia.
  - intros ts Hlen.
    destruct ts as [|t1 [|t2 [|t3 [|t4 [|t5 ts]]]]]; cbn in Hlen; try lia.
    assert (Hfive : exists g5,
               run g0 (List.map (fun t => (t, Matched)) [t1; t2; t3; t4; t5]) = g5
               /\ status (gameState g5) = success
               /\ score (gameState g5) = TARGET_SCORE
               /\ confettiRuns g5 = S (confettiRuns g)).
    { cbn [List.map]. rewrite !run_cons.
      destruct (step_matched g0 t1 Hd Hs Hf) as (Hd1 & Hsc1 & Hs1 & Hf1 & Hr1).
      rewrite Hsc in *. reach_target.
      destruct (step_matched _ t2 Hd1 Hs1 Hf1) as (Hd2 & Hsc2 & Hs2 & Hf2 & Hr2).
      rewrite Hsc1 in *. reach_target.
      destruct (step_matched _ t3 Hd2 Hs2 Hf2) as (Hd3 & Hsc3 & Hs3 & Hf3 & Hr3).
      rewrite Hsc2 in *. reach_target.
      destruct (step_matched _ t4 Hd3 Hs3 Hf3) as (Hd4 & Hsc4 & Hs4 & Hf4 & Hr4).
      rewrite Hsc3 in *. reach_target.
      destruct (step_matched _ t5 Hd4 Hs4 Hf4) as (Hd5 & Hsc5 & Hs5 & Hf5 & Hr5).
      rewrite Hsc4 in *. reach_target.
      eexists. split; [reflexivity|]. cbn [run List.fold_left].
      repeat split; [done|done|]. congruence. }
    destruct Hfive as (g5 & Hrun & Hs5 & Hsc5 & Hr5).
    change (t1 :: t2 :: t3 :: t4 :: t5 :: ts)
      with ([t1; t2; t3; t4; t5] ++ ts).
    rewrite Hround by apply inRound_matches.
    rewrite List.map_app, run_app, Hrun, run_matched_not_playing by congruence.
    rewrite Hs5. done.
Qed.

Lemma success_entered_once_witness :
  let g := step initial 0 (DifficultySelected Easy fallback) in
  let matches := List.map (fun t => (t, Matched))
                   [1500; 2500; 3500; 4500; 5500; 6500; 7500]%Z in
  wired g StartClicked = true
  /\ status (gameState (run (step g 1000 StartClicked) matches)) = success
  /\ score (gameState (run (step g 1000 StartClicked) matches)) = TARGET_SCORE
  /\ successEntries (step g 1000 StartClicked) matches = 1
  /\ confettiRuns (run (step g 1000 StartClicked) matches) = S (confettiRuns g).
Proof.
  intros g matches. split; [reflexivity|].
  apply (success_entered_once g 1000%Z); [reflexivity|].
  cbn [length]. lia.
Defined.

(** C5. The score rises only while playing: whatever the event (a match,
    a statement, a timer tick, a click on start, on retry or on next, a
    difficulty chosen), a game whose status is not [playing] before it
    has no higher score after it. *)
Theorem score_rises_only_while_playing g now e :
  status (gameState g) <> playing ->
  (score (gameState (step g now e)) <= score (gameState g))%N.
Proof.
  intros Hs. unfold step. destruct (wired g e) eqn:Hw; [|lia].
  rewrite score_render.
  destruct e; cbn [handler setGameState setSpokenStatements
                   setSelectedDifficulty gameState score fetchNewTwister
                   startGame retrySame]; try lia.
  - cbn in Hw. apply andb_true_iff in Hw as [_ Hw].
    by apply Status_eqb_eq in Hw.
  - destruct (timerRef g) as [tm|]; [|lia].
    cbn [setGameState gameState]. rewrite tick_not_playing by done. lia.
Qed.

Lemma score_rises_only_while_playing_witness :
  let won := run (step initial 0 (DifficultySelected Easy fallback))
               ((1000%Z, StartClicked)
                :: List.map (fun t => (t, Matched)) [1500; 2500; 3500; 4500; 5500]%Z) in
  status (gameState won) <> playing
  /\ (score (gameState (step won 6500 Matched)) <= score (gameState won))%N.
Proof.
  intros won.
  assert (Hs : status (gameState won) <> playing)
    by (vm_compute; discriminate).
  split; [exact Hs|].
  apply (score_rises_only_while_playing won 6500%Z Matched Hs).
Defined.

(** [handleMatch] itself asks nothing of the status: the match that
    reaches it counts.  What keeps the score is that the handler is wired
    only while playing. *)
Remark handleMatch_counts (prev : GameState) :
  score (handleMatch prev) = (score prev + 1)%N
  /\ status (handleMatch prev) = status prev.
Proof. done. Qed.

(** Nor would a match that reached [handleMatch] after the win enter
    [success] anew or fire the confetti again: the win-condition effect
    asks for the status [playing]. *)
Remark late_match_keeps_success g now :
  status (gameState g) = success ->
  status (gameState (render g (setGameState handleMatch g) now)) = success
  /\ confettiRuns (render g (setGameState handleMatch g) now) = confettiRuns g.
Proof.
  intros Hs. unfold render, commit. cbn. rewrite Hs. cbn.
  by rewrite !andb_false_r.
Qed.

(** ** The timer *)

Lemma newTimeLeft_bounds (tm : Timer) now :
  (startTime tm <= now)%Z -> (0 <= startValue tm)%Z ->
  (0 <= newTimeLeft tm now <= startValue tm)%Z.
Proof.
  intros Hnow Hv. unfold newTimeLeft.
  assert (0 <= (now - startTime tm) / 1000)%Z
    by (apply Z.div_pos; lia).
  lia.
Qed.

Lemma tick_timeLeft (z : Z) (prev : GameState) :
  status prev = playing -> timeLeft (tick z prev) = z.
Proof.
  intros Hs. unfold tick. rewrite Hs. cbn.
  destruct (Z.eqb_spec z 0) as [->|_]; [done|].
  destruct (Z.eqb_spec (timeLeft prev) z); cbn; done.
Qed.

Lemma tick_timeLeft_cases (z : Z) (prev : GameState) :
  timeLeft (tick z prev) = timeLeft prev \/ timeLeft (tick z prev) = z.
Proof.
  destruct (Status_eqb (status prev) playing) eqn:Hs.
  - right. apply tick_timeLeft. by apply Status_eqb_eq.
  - left. rewrite tick_not_playing; [done|]. by apply Status_eqb_neq.
Qed.

Lemma timerRef_handler now e g : timerRef (handler now e g) = timerRef g.
Proof. destruct e; cbn; try done. by destruct (timerRef g) eqn:Htm. Qed.

(** The calls of one event of the recognizer change the score and the
    history of statements, and nothing else. *)
Lemma deliver_fields (cs : list (Z * Call)) g :
  status (gameState (deliver cs g)) = status (gameState g)
  /\ score (gameState (deliver cs g))
     = (score (gameState g) + N.of_nat (matchesReported (List.map snd cs)))%N
  /\ timeLeft (gameState (deliver cs g)) = timeLeft (gameState g)
  /\ currentTwister (gameState (deliver cs g)) = currentTwister (gameState g)
  /\ selectedDifficulty (deliver cs g) = selectedDifficulty g
  /\ timerRef (deliver cs g) = timerRef g
  /\ confettiFiredRef (deliver cs g) = confettiFiredRef g
  /\ confettiRuns (deliver cs g) = confettiRuns g
  /\ exists more,
       spokenStatements (deliver cs g) = spokenStatements g ++ more
       /\ length more = statementsSpoken (List.map snd cs).
Proof.
  unfold deliver. revert g.
  induction cs as [|[t c] cs IH]; intros g.
  - cbn. rewrite N.add_0_r. repeat split; try done.
    exists []. by rewrite app_nil_r.
  - cbn [List.fold_left fst snd List.map].
    destruct (IH (handler t (callEvent c) g))
      as (Hs & Hsc & Htl & Htw & Hd & Htm & Hf & Hr & more & Hsp & Hlen).
    rewrite Hs, Hsc, Htl, Htw, Hd, Htm, Hf, Hr, Hsp.
    destruct c as [statement m|]; cbn.
    + repeat split; try done.
      exists ({| text := statement; timestamp := t; isMatch := m |} :: more).
      rewrite <- app_assoc. split; [done|]. cbn.
      unfold statementsSpoken in *. cbn. lia.
    + unfold matchesReported, statementsSpoken in *. cbn.
      repeat split; try done; [lia|]. by exists more.
Qed.

(** The state one event of the recognizer leaves while the round is
    being played with the flag down: the score has risen by the number
    of matches among its calls, and the round is won when it has reached
    the target. *)
Lemma recognized_playing (cs : list (Z * Call)) g now :
  hasDifficulty g = true ->
  status (gameState g) = playing ->
  confettiFiredRef g = false ->
  let wins :=
    negb (score (gameState g) =? score (gameState (deliver cs g)))%N
    && (TARGET_SCORE <=? score (gameState (deliver cs g)))%N in
  gameState (recognized g now cs)
  = (if wins then win (gameState (deliver cs g)) else gameState (deliver cs g))
  /\ timerRef (recognized g now cs) = (if wins then None else timerRef g)
  /\ confettiFiredRef (recognized g now cs) = wins
  /\ selectedDifficulty (recognized g now cs) = selectedDifficulty g
  /\ spokenStatements (recognized g now cs) = spokenStatements (deliver cs g).
Proof.
  intros Hd Hp Hf wins. unfold recognized, wired. rewrite Hd, Hp. cbn [andb Status_eqb].
  destruct (deliver_fields cs g) as (Hs & _ & _ & _ & Hsd & Htm & Hfl & _ & _).
  unfold render, commit.
  rewrite Hs, Hp, Hfl, Hf, Htm, Hsd. cbn [Status_eqb negb andb orb].
  rewrite !orb_false_r, !andb_true_r. fold wins.
  destruct wins; cbn; rewrite ?Hs, ?Hp; cbn; rewrite ?andb_false_r; done.
Qed.

(** What every state reached under a clock that does not fall behind the
    start of the interval keeps: the time left lies between 0 and the
    duration of a round, and so does the value the running interval
    counts down from. *)
Lemma reachable_timer_invariant g :
  reachableWith notBehindStart g ->
  (0 <= timeLeft (gameState g) <= GAME_DURATION)%Z
  /\ (forall tm, timerRef g = Some tm ->
                 (0 <= startValue tm <= GAME_DURATION)%Z).
Proof.
  induction 1 as [|g now e Hg [IHt IHv] Hclock|g now cs Hg [IHt IHv] Hclock].
  - split; [cbn; unfold GAME_DURATION; lia|]. intros tm [=].
  - unfold step. destruct (wired g e) eqn:Hw; [|done].
    assert (Hh : (0 <= timeLeft (gameState (handler now e g)) <= GAME_DURATION)%Z).
    { destruct e; cbn; try (unfold GAME_DURATION; lia); try done.
      destruct (timerRef g) as [tm|] eqn:Htm; [|done]. cbn.
      destruct (tick_timeLeft_cases (newTimeLeft tm now) (gameState g))
        as [-> | ->]; [done|].
      specialize (IHv tm eq_refl). specialize (Hclock tm Htm).
      pose proof (newTimeLeft_bounds tm now Hclock). lia. }
    split; [by rewrite timeLeft_render|].
    intros tm [Htm | ->]%timerRef_render; [|done].
    rewrite timerRef_handler in Htm. by apply IHv.
  - unfold recognized. destruct (wired g Matched); [|done].
    destruct (deliver_fields cs g) as (_ & _ & Htl & _ & _ & Htm & _).
    split; [by rewrite timeLeft_render, Htl|].
    intros tm [Htm' | ->]%timerRef_render; [|by rewrite Htl].
    rewrite Htm in Htm'. by apply IHv.
Qed.

(** C10, as the specification states it, fails: the seconds elapsed are
    those of [Date.now()], and the clock can be set back.  A tick that
    reads it half a second behind the reading at which the interval was
    started counts one second less than none elapsed, and shows 61. *)
Lemma clock_set_back_shows_sixty_one :
  let g := run initial
             [ (0%Z, DifficultySelected Easy fallback);
               (1000%Z, StartClicked);
               (500%Z, TimerFired) ] in
  reachable g
  /\ status (gameState g) = playing
  /\ timeLeft (gameState g) = 61%Z
  /\ ~ (0 <= timeLeft (gameState g) <= 60)%Z.
Proof.
  intros g. split.
  - subst g. rewrite !run_cons. unfold reachable.
    repeat (apply reachable_step; [|exact I]). apply reachable_initial.
  - split; [vm_compute; reflexivity|].
    assert (H : timeLeft (gameState g) = 61%Z) by (vm_compute; reflexivity).
    split; [exact H|]. rewrite H. lia.
Qed.

(** C10, amended.  In every state the game reaches while no reading of
    the clock is behind the reading at which the running interval was
    started, the time left lies between 0 and the 60 seconds of a round.
    The initial state and the updates of a start, a retry and a new
    twister set it to 60, and a tick sets it to the larger of 0 and the
    start value less the seconds elapsed, which is at least 0 and at most
    the start value when the clock is not behind the start. *)
Theorem timeLeft_within_round g :
  reachableWith notBehindStart g ->
  (0 <= timeLeft (gameState g) <= 60)%Z
  /\ timeLeft (gameState initial) = 60%Z
  /\ (forall prev, timeLeft (startGame prev) = 60%Z
                   /\ timeLeft (retrySame prev) = 60%Z)
  /\ (forall twister prev, timeLeft (fetchNewTwister twister prev) = 60%Z)
  /\ (forall tm now prev,
        timerRef g = Some tm -> (startTime tm <= now)%Z ->
        status prev = playing ->
        timeLeft (tick (newTimeLeft tm now) prev)
        = Z.max 0 (startValue tm - (now - startTime tm) / 1000)
        /\ (0 <= timeLeft (tick (newTimeLeft tm now) prev) <= startValue tm)%Z).
Proof.
  intros Hg. destruct (reachable_timer_invariant g Hg) as [Ht Hv].
  split; [exact Ht|]. split; [done|]. split; [done|]. split; [done|].
  intros tm now prev Htm Hnow Hp. rewrite tick_timeLeft by done.
  split; [reflexivity|].
  apply newTimeLeft_bounds; [done|]. by apply Hv.
Qed.

Lemma timeLeft_within_round_witness :
  let g := run initial
             [ (0%Z, DifficultySelected Easy fallback);
               (1000%Z, StartClicked);
               (3500%Z, TimerFired) ] in
  reachableWith notBehindStart g
  /\ (0 <= timeLeft (gameState g) <= 60)%Z
  /\ timeLeft (gameState g) = 58%Z.
Proof.
  intros g.
  assert (Hr : reachableWith notBehindStart g).
  { subst g. rewrite !run_cons. apply reachable_step.
    - apply reachable_step.
      + apply reachable_step; [apply reachable_initial|].
        intros tm H. vm_compute in H. discriminate.
      + intros tm H. vm_compute in H. discriminate.
    - intros tm H. vm_compute in H. injection H as <-. vm_compute.
      discriminate. }
  split; [exact Hr|].
  split; [exact (proj1 (timeLeft_within_round g Hr))|].
  vm_compute. reflexivity.
Defined.

(** A tick while playing below the target score: the game state is the
    one the updater gives, and the interval stops when the time is up. *)
Lemma step_tick_playing g now (tm : Timer) :
  status (gameState g) = playing ->
  timerRef g = Some tm ->
  (score (gameState g) < TARGET_SCORE)%N ->
  gameState (step g now TimerFired) = tick (newTimeLeft tm now) (gameState g)
  /\ timerRef (step g now TimerFired)
     = if (newTimeLeft tm now =? 0)%Z then None else Some tm.
Proof.
  destruct g as [d [s sc tl tw] sp tmr fl cr]. cbn.
  intros -> -> Hsc. apply N.leb_gt in Hsc. unfold step, wired. cbn.
  generalize (newTimeLeft tm now). intros z.
  unfold render, commit, tick. cbn.
  destruct (Z.eqb_spec z 0) as [->|Hz]; cbn.
  - by rewrite N.eqb_refl, Hsc.
  - destruct (Z.eqb_spec tl z); cbn; rewrite N.eqb_refl, ?Hsc; cbn; done.
Qed.

(** A statement spoken while playing changes neither the game state nor
    the interval. *)
Lemma step_statement g now (statement : jsstring) (m : bool) :
  gameState (step g now (StatementSpoken statement m)) = gameState g
  /\ timerRef (step g now (StatementSpoken statement m)) = timerRef g.
Proof.
  unfold step. destruct (wired _ _); [|done].
  unfold render, commit. cbn.
  by rewrite Status_eqb_refl, N.eqb_refl.
Qed.

(** C6. With the round of 60 seconds and no match, once 60 seconds or
    more of the clock have passed since the start, a tick leaves the
    status [failed] and the time left 0, whatever ticks and statements
    came before; and as long as the round is being played each tick sets
    the time left to the larger of 0 and 60 less the whole seconds elapsed
    on the clock since the start. *)
Theorem round_fails_after_sixty_seconds
    g start (es : list (Z * Event)) (t : Z) :
  wired g StartClicked = true ->
  Forall (fun te => inRound (snd te) = true /\ snd te <> Matched) es ->
  (start + 60000 <= t)%Z ->
  status (gameState (run (step g start StartClicked) (es ++ [(t, TimerFired)])))
  = failed
  /\ timeLeft (gameState (run (step g start StartClicked) (es ++ [(t, TimerFired)])))
     = 0%Z
  /\ (forall now,
        status (gameState (run (step g start StartClicked) es)) = playing ->
        timeLeft (gameState (step (run (step g start StartClicked) es) now TimerFired))
        = Z.max 0 (GAME_DURATION - (now - start) / 1000)).
Proof.
  intros Hw Hes Ht.
  destruct (step_start g start Hw) as (_ & Hs & Hsc & _ & Htm & _ & _).
  set (tm := {| startTime := start; startValue := GAME_DURATION |}) in *.
  set (g0 := step g start StartClicked) in *.
  assert (Hinv : forall g1,
             status (gameState g1) = playing /\ timerRef g1 = Some tm
             /\ score (gameState g1) = 0%N
             \/ status (gameState g1) = failed /\ timeLeft (gameState g1) = 0%Z ->
             status (gameState (run g1 es)) = playing
             /\ timerRef (run g1 es) = Some tm
             /\ score (gameState (run g1 es)) = 0%N
             \/ status (gameState (run g1 es)) = failed
                /\ timeLeft (gameState (run g1 es)) = 0%Z).
  { clear Hs Hsc Htm. induction Hes as [|[now e] es [He Hm] _ IH]; [done|].
    intros g1 Hg1. rewrite run_cons. apply IH.
    destruct Hg1 as [(Hs & Htm & Hsc) | (Hs & Hz)].
    - destruct e as [| | |statement m| | |]; try discriminate; try done.
      + destruct (step_statement g1 now statement m) as [-> ->]. auto.
      + destruct (step_tick_playing g1 now tm Hs Htm) as [Hgs Htr];
          [rewrite Hsc; done|].
        rewrite Hgs, Htr. unfold tick. rewrite Hs. cbn.
        destruct (Z.eqb_spec (newTimeLeft tm now) 0); cbn; [auto|].
        destruct (Z.eqb_spec (timeLeft (gameState g1)) (newTimeLeft tm now));
          cbn; auto.
    - right. rewrite step_frozen by (done || congruence). done. }
  assert (Hlast : forall g1,
             status (gameState g1) = playing /\ timerRef g1 = Some tm
             /\ score (gameState g1) = 0%N
             \/ status (gameState g1) = failed /\ timeLeft (gameState g1) = 0%Z ->
             status (gameState (step g1 t TimerFired)) = failed
             /\ timeLeft (gameState (step g1 t TimerFired)) = 0%Z).
  { intros g1 [(Hs1 & Htm1 & Hsc1) | (Hs1 & Hz1)].
    - destruct (step_tick_playing g1 t tm Hs1 Htm1) as [-> _];
        [rewrite Hsc1; done|].
      assert (Hzero : newTimeLeft tm t = 0%Z).
      { unfold newTimeLeft, tm, GAME_DURATION. cbn.
        assert (60 <= (t - start) / 1000)%Z
          by (apply Z.div_le_lower_bound; lia).
        lia. }
      rewrite Hzero. unfold tick. by rewrite Hs1.
    - rewrite step_frozen by (done || congruence). done. }
  specialize (Hinv g0 (or_introl (conj Hs (conj Htm Hsc)))).
  rewrite run_app, run_cons. cbn [run List.fold_left].
  destruct (Hlast _ Hinv) as [Hf Hz].
  split; [exact Hf|]. split; [exact Hz|].
  intros now Hp. destruct Hinv as [(Hs1 & Htm1 & Hsc1) | (Hs1 & _)]; [|congruence].
  destruct (step_tick_playing _ now tm Hs1 Htm1) as [-> _];
    [rewrite Hsc1; done|].
  by rewrite tick_timeLeft.
Qed.

Lemma round_fails_after_sixty_seconds_witness :
  let g := step initial 0 (DifficultySelected Medium fallback) in
  let es := [ (1500%Z, TimerFired);
              (9000%Z, StatementSpoken (js "six slimy snakes") false);
              (31000%Z, TimerFired) ] in
  wired g StartClicked = true
  /\ status (gameState (run (step g 1000 StartClicked) (es ++ [(61000%Z, TimerFired)])))
     = failed
  /\ timeLeft (gameState (run (step g 1000 StartClicked) (es ++ [(61000%Z, TimerFired)])))
     = 0%Z.
Proof.
  intros g es. split; [reflexivity|].
  destruct (round_fails_after_sixty_seconds g 1000%Z es 61000%Z)
    as (Hf & Hz & _).
  - reflexivity.
  - subst es. repeat constructor; discriminate.
  - lia.
  - split; [exact Hf|exact Hz].
Defined.

End Rounds.

(** * Further properties of the code *)

Import Session Route Display.

(** ** The matcher *)

Section Matcher.

Implicit Types (target statement : jsstring).

(** [checkMatch] past its guard. *)
Lemma checkMatch_cases target statement :
  checkMatch target statement =
  if isEmpty target || isEmpty (trim statement) then false
  else
    includes (normalize statement) target
    || includes target (normalize statement)
       && atLeastSixTenths (length (normalize statement)) (length target)
    || (0 <? length (words (normalize statement)))
       && (0 <? length (words target))
       && atLeastSixTenths
            (length (List.filter (wordMatches (words (normalize statement)))
                       (words target)))
            (length (words target)).
Proof.
  unfold checkMatch. destruct (_ || _); [done|].
  destruct (includes (normalize statement) target); [done|].
  destruct (includes target (normalize statement) && _); [done|].
  cbn [orb]. destruct (_ && _); [|done]. by destruct (atLeastSixTenths _ _).
Qed.

Lemma nonblank_of_normalize statement :
  isEmpty (normalize statement) = false -> isEmpty (trim statement) = false.
Proof.
  intros H. destruct (trim statement) eqn:Ht; [|done].
  by rewrite (trim_empty_normalize _ Ht) in H.
Qed.

Lemma filter_length_le {A} (p q : A -> bool) (l : list A) :
  (forall x, In x l -> p x = true -> q x = true) ->
  length (List.filter p l) <= length (List.filter q l).
Proof.
  induction l as [|a l IH]; intros H; [done|]. cbn.
  assert (IH' : length (List.filter p l) <= length (List.filter q l)).
  { apply IH. intros x Hx. apply H. by right. }
  destruct (p a) eqn:Hp.
  - rewrite (H a (or_introl eq_refl) Hp). cbn. lia.
  - destruct (q a); cbn; lia.
Qed.

Lemma atLeastSixTenths_mono (n n' m : nat) :
  n <= n' -> atLeastSixTenths n m = true -> atLeastSixTenths n' m = true.
Proof.
  unfold atLeastSixTenths. intros Hn H.
  apply Nat.leb_le in H. apply Nat.leb_le. lia.
Qed.

(** The normal form does not see white space around the text, holds only
    lowercase letters, digits and spaces, and has no white space at either
    end. *)
Theorem normalize_shape (x : jsstring) :
  normalize (trim x) = normalize x
  /\ Forall (fun c => isCanonical c = true) (normalize x)
  /\ trim (normalize x) = normalize x.
Proof.
  split; [apply normalize_trim|]. split; [apply normalize_canonical|].
  unfold normalize. apply trim_idem.
Qed.

Lemma checkMatch_empty_normal_form target statement :
  isEmpty (normalize statement) = true ->
  checkMatch target statement = false.
Proof.
  intros Hn. destruct (normalize statement) as [|c r] eqn:Hs; [|done].
  rewrite checkMatch_cases, Hs.
  destruct (isEmpty target || isEmpty (trim statement)) eqn:Hg; [done|].
  apply orb_false_iff in Hg as [Ht _].
  destruct target as [|b t]; [done|]. cbn.
  unfold atLeastSixTenths. cbn. done.
Qed.

(** An utterance whose normal form is empty (nothing but punctuation,
    symbols or white space) matches no target. *)
Theorem garbage_never_matches target statement :
  isEmpty (normalize statement) = true ->
  checkMatch target statement = false.
Proof.
  intros Hn. destruct (normalize statement) as [|c r] eqn:Hs; [|done].
  rewrite checkMatch_cases, Hs.
  destruct (isEmpty target || isEmpty (trim statement)) eqn:Hg; [done|].
  apply orb_false_iff in Hg as [Ht _].
  destruct target as [|b t]; [done|]. cbn.
  unfold atLeastSixTenths. cbn. done.
Qed.

Lemma garbage_never_matches_witness :
  isEmpty (normalize (js " ?!... ")) = true
  /\ checkMatch (normalize (js "Red lorry, yellow lorry")) (js " ?!... ") = false.
Proof.
  split; [vm_compute; reflexivity|].
  apply garbage_never_matches. vm_compute. reflexivity.
Defined.

(** The matcher sees an utterance only through its normal form: two
    utterances with the same normal form get the same answer, whatever
    their case, punctuation and outer white space. *)
Theorem checkMatch_by_normal_form target statement statement' :
  normalize statement = normalize statement' ->
  checkMatch target statement = checkMatch target statement'.
Proof.
  intros Heq. destruct (isEmpty (normalize statement)) eqn:Hn.
  - rewrite (checkMatch_empty_normal_form target statement Hn).
    rewrite Heq in Hn.
    by rewrite (checkMatch_empty_normal_form target statement' Hn).
  - rewrite !checkMatch_cases, (nonblank_of_normalize statement Hn).
    rewrite Heq in Hn |- *. by rewrite (nonblank_of_normalize statement' Hn).
Qed.

Lemma checkMatch_by_normal_form_witness :
  normalize (js "  SIX slippery snails!! ") = normalize (js "six slippery snails")
  /\ checkMatch (normalize (js "Six slippery snails slid slowly seaward."))
       (js "  SIX slippery snails!! ")
     = checkMatch (normalize (js "Six slippery snails slid slowly seaward."))
         (js "six slippery snails").
Proof.
  split; [vm_compute; reflexivity|].
  apply checkMatch_by_normal_form. vm_compute. reflexivity.
Defined.

(** Word order does not count: an utterance in which every word of the
    target occurs as a word, in whatever order and among whatever other
    words, matches. *)
Theorem all_words_in_any_order_match (phrase statement : jsstring) :
  isEmpty (normalize phrase) = false ->
  (forall w, In w (words (normalize phrase)) -> In w (words (normalize statement))) ->
  checkMatch (normalize phrase) statement = true.
Proof.
  intros Hp Hall.
  pose proof (words_normalize phrase Hp) as Htw.
  assert (Hiw : (0 <? length (words (normalize statement))) = true).
  { destruct (words (normalize phrase)) as [|w ws] eqn:Hw; [done|].
    specialize (Hall w (or_introl eq_refl)).
    by destruct (words (normalize statement)). }
  assert (Hn : isEmpty (normalize statement) = false).
  { destruct (normalize statement); [done|done]. }
  rewrite checkMatch_cases, Hp, (nonblank_of_normalize _ Hn), Hiw, Htw.
  cbn [orb andb].
  assert (Hkeep : List.filter (wordMatches (words (normalize statement)))
                    (words (normalize phrase)) = words (normalize phrase)).
  { apply List.forallb_filter_id, List.forallb_forall. intros w Hw.
    unfold wordMatches. apply List.existsb_exists. exists w.
    split; [by apply Hall|]. by rewrite includes_refl. }
  rewrite Hkeep. unfold atLeastSixTenths at 2.
  replace (3 * _ <=? 5 * _) with true by (symmetry; apply Nat.leb_le; lia).
  by rewrite !orb_true_r.
Qed.

Lemma all_words_in_any_order_match_witness :
  isEmpty (normalize (js "Red lorry, yellow lorry")) = false
  /\ checkMatch (normalize (js "Red lorry, yellow lorry"))
       (js "lorry yellow and then red") = true.
Proof.
  split; [vm_compute; reflexivity|].
  apply all_words_in_any_order_match; [vm_compute; reflexivity|].
  intros w Hw. vm_compute in Hw. vm_compute.
  repeat destruct Hw as [<- | Hw]; tauto.
Defined.

(** The word test looks for substrings both ways: one word of the
    utterance that occurs inside at least six tenths of the words of the
    target makes the utterance match, however short it is. *)
Theorem fragment_of_most_words_matches (phrase statement w : jsstring) :
  isEmpty (normalize phrase) = false ->
  In w (words (normalize statement)) ->
  atLeastSixTenths
    (length (List.filter (fun tWord => includes tWord w) (words (normalize phrase))))
    (length (words (normalize phrase))) = true ->
  checkMatch (normalize phrase) statement = true.
Proof.
  intros Hp Hw Hmost.
  pose proof (words_normalize phrase Hp) as Htw.
  assert (Hiw : (0 <? length (words (normalize statement))) = true)
    by (by destruct (words (normalize statement))).
  assert (Hn : isEmpty (normalize statement) = false).
  { destruct (normalize statement); [done|done]. }
  rewrite checkMatch_cases, Hp, (nonblank_of_normalize _ Hn), Hiw, Htw.
  cbn [orb andb].
  assert (Himp : forall t, In t (words (normalize phrase)) ->
                   includes t w = true ->
                   wordMatches (words (normalize statement)) t = true).
  { intros t _ Ht. unfold wordMatches. apply List.existsb_exists.
    exists w. split; [done|]. by rewrite Ht, orb_true_r. }
  rewrite (atLeastSixTenths_mono _ _ _ (filter_length_le _ _ _ Himp) Hmost).
  by rewrite !orb_true_r.
Qed.

Lemma fragment_of_most_words_matches_witness :
  isEmpty (normalize (js "Six slippery snails slid slowly seaward.")) = false
  /\ checkMatch (normalize (js "Six slippery snails slid slowly seaward."))
       (js "s") = true.
Proof.
  split; [vm_compute; reflexivity|].
  apply (fragment_of_most_words_matches _ _ (js "s")).
  - vm_compute. reflexivity.
  - vm_compute. tauto.
  - vm_compute. reflexivity.
Defined.

End Matcher.

(** ** The result handler *)

#[local] Arguments trim : simpl never.
#[local] Arguments normalize : simpl never.
#[local] Arguments checkMatch : simpl never.
#[local] Arguments statementKey : simpl never.
#[local] Arguments timeWindowOf : simpl never.

Section Loop.

Variables (props : Props) (target : jsstring) (now : N).

Implicit Types (l : Loop) (r : SpeechRecognitionResult)
  (rs : list SpeechRecognitionResult).

Lemma statementsSpoken_app (a b : list Call) :
  statementsSpoken (a ++ b) = statementsSpoken a + statementsSpoken b.
Proof. unfold statementsSpoken. by rewrite List.filter_app, length_app. Qed.

Lemma matchesReported_app (a b : list Call) :
  matchesReported (a ++ b) = matchesReported a + matchesReported b.
Proof. unfold matchesReported. by rewrite List.filter_app, length_app. Qed.

(** One turn of the loop either leaves calls and record alone, or
    processes a final statement that is not blank and whose key is new. *)
Lemma resultStep_cases l r :
  (calls (resultStep props target now l r) = calls l
   /\ processed (resultStep props target now l r) = processed l
   /\ lastProcessed (resultStep props target now l r) = lastProcessed l
   /\ matched (resultStep props target now l r) = matched l)
  \/ (isFinal r = true
      /\ isEmpty (trim (transcript r)) = false
      /\ (statementKey (normalize (trim (transcript r))) (timeWindowOf now)
          ∉ processed l)
      /\ calls (resultStep props target now l r)
         = calls l
           ++ ((if hasOnStatementSpoken props
                then [onStatementSpoken (trim (transcript r))
                        (checkMatch target (trim (transcript r)))]
                else [])
               ++ (if checkMatch target (trim (transcript r)) then [onMatch] else []))
      /\ processed (resultStep props target now l r)
         = {[ statementKey (normalize (trim (transcript r))) (timeWindowOf now) ]}
           ∪ processed l).
Proof.
  unfold resultStep. destruct (isFinal r); [|by left].
  destruct (isEmpty (trim (transcript r))) eqn:Hb; [by left|]. cbn.
  destruct (decide _) as [Hin|Hin]; [by left|]. right. by cbn.
Qed.

Lemma reported_weaken (before before' after after' : gset jsstring) (c : Call) :
  before' ⊆ before -> after ⊆ after' ->
  reported target now before after c -> reported target now before' after' c.
Proof.
  intros Hb Ha. destruct c as [statement verdict|]; [|done].
  intros (Hv & He & Hn & Hi). repeat split; [done|done|set_solver|set_solver].
Qed.

Lemma loop_calls rs l :
  exists new,
    calls (List.fold_left (resultStep props target now) rs l) = calls l ++ new
    /\ processed l ⊆ processed (List.fold_left (resultStep props target now) rs l)
    /\ Forall (reported target now (processed l)
                 (processed (List.fold_left (resultStep props target now) rs l)))
         new
    /\ List.NoDup
         (List.map (fun s => statementKey (normalize s) (timeWindowOf now))
            (statementsOf new))
    /\ statementsSpoken new <= length (List.filter isFinal rs)
    /\ matchesReported new <= length (List.filter isFinal rs)
    /\ (hasOnStatementSpoken props = true ->
        matchesReported new <= statementsSpoken new).
Proof.
  revert l. induction rs as [|r rs IH]; intros l.
  - exists []. cbn. rewrite app_nil_r.
    repeat split; try done; try lia. constructor.
  - cbn [List.fold_left]. destruct (IH (resultStep props target now l r))
      as (new & Hc & Hsub & Hrep & Hnd & Hs & Hm & Hms).
    set (final := List.fold_left (resultStep props target now) rs
                    (resultStep props target now l r)) in *.
    assert (Hlen : length (List.filter isFinal rs)
                   <= length (List.filter isFinal (r :: rs)))
      by (cbn; destruct (isFinal r); cbn; lia).
    destruct (resultStep_cases l r)
      as [(Hc1 & Hp1 & _ & _) | (Hf & Hb & Hk & Hc1 & Hp1)].
    + exists new. rewrite Hc, Hc1. rewrite Hp1 in Hsub, Hrep.
      repeat split; try done; lia.
    + set (text := trim (transcript r)) in *.
      set (key := statementKey (normalize text) (timeWindowOf now)) in *.
      set (head := (if hasOnStatementSpoken props
                    then [onStatementSpoken text (checkMatch target text)]
                    else [])
                   ++ (if checkMatch target text then [onMatch] else [])) in *.
      assert (Hhs : statementsSpoken head
                    = if hasOnStatementSpoken props then 1 else 0)
        by apply statementsSpoken_fresh.
      assert (Hhm : matchesReported head
                    = if checkMatch target text then 1 else 0)
        by apply matchesReported_fresh.
      assert (Hlen' : length (List.filter isFinal (r :: rs))
                      = S (length (List.filter isFinal rs)))
        by (cbn; by rewrite Hf).
      assert (Hgrow : processed l ⊆ processed (resultStep props target now l r))
        by (rewrite Hp1; apply union_subseteq_r).
      assert (Hkey : key ∈ processed final).
      { apply Hsub. rewrite Hp1. by apply elem_of_union_l, elem_of_singleton. }
      exists (head ++ new).
      split; [by rewrite Hc, Hc1, <- app_assoc|].
      split; [by etrans|].
      split.
      { apply Forall_app. split.
        - subst head. apply Forall_app. split.
          + destruct (hasOnStatementSpoken props); [|constructor].
            constructor; [|constructor].
            cbn. repeat split; [exact Hb|exact Hk|exact Hkey].
          + destruct (checkMatch target text); by repeat constructor.
        - eapply List.Forall_impl; [|exact Hrep].
          intros c. by apply reported_weaken. }
      split.
      { assert (Hfresh : ~ In key
                  (List.map (fun s => statementKey (normalize s) (timeWindowOf now))
                     (statementsOf new))).
        { intros Hin. apply List.in_map_iff in Hin as (s & Hs' & Hin).
          apply List.in_flat_map in Hin as (c & Hcin & Hc').
          rewrite List.Forall_forall in Hrep. specialize (Hrep c Hcin).
          destruct c as [s' v|]; [|done]. cbn in Hc'.
          destruct Hc' as [->|[]]. destruct Hrep as (_ & _ & Hn & _).
          apply Hn. rewrite Hs', Hp1.
          by apply elem_of_union_l, elem_of_singleton. }
        unfold statementsOf in *. subst head.
        rewrite !List.flat_map_app, !List.map_app.
        destruct (hasOnStatementSpoken props), (checkMatch target text);
          cbn; try exact Hnd; constructor; (exact Hfresh || exact Hnd). }
      rewrite statementsSpoken_app, matchesReported_app, Hhs, Hhm, Hlen'.
      destruct (hasOnStatementSpoken props), (checkMatch target text);
        repeat split; intros; try lia; try (specialize (Hms eq_refl); lia);
        done.
Qed.

(** A run over results that are all interim only grows the interim
    transcript. *)
Lemma loop_interim rs l :
  Forall (fun r => isFinal r = false) rs ->
  List.fold_left (resultStep props target now) rs l
  = {| interimTranscript :=
         interimTranscript l
         ++ List.concat (List.map (fun r => trim (transcript r)) rs);
       latestFinalStatement := latestFinalStatement l;
       processed := processed l;
       lastProcessed := lastProcessed l;
       matched := matched l;
       calls := calls l |}.
Proof.
  intros Hrs. revert l. induction Hrs as [|r rs Hr _ IH]; intros l.
  - cbn. rewrite app_nil_r. by destruct l.
  - cbn [List.fold_left]. rewrite IH. unfold resultStep. rewrite Hr. cbn.
    by rewrite <- app_assoc.
Qed.

End Loop.

Section Handler.

Implicit Types (props : Props) (st : State) (now : N)
  (event : SpeechRecognitionEvent).

Lemma handleResult_calls props st now event :
  processedStatementsRef st
    ⊆ processedStatementsRef (fst (handleResult props st now event))
  /\ Forall (reported (normalizedTargetRef st) now (processedStatementsRef st)
               (processedStatementsRef (fst (handleResult props st now event))))
       (snd (handleResult props st now event))
  /\ List.NoDup
       (List.map (fun s => statementKey (normalize s) (timeWindowOf now))
          (statementsOf (snd (handleResult props st now event))))
  /\ statementsSpoken (snd (handleResult props st now event))
     <= length (finalResults event)
  /\ matchesReported (snd (handleResult props st now event))
     <= length (finalResults event)
  /\ (hasOnStatementSpoken props = true ->
      matchesReported (snd (handleResult props st now event))
      <= statementsSpoken (snd (handleResult props st now event))).
Proof.
  unfold handleResult, finalResults.
  destruct (isMountedRef st); cbn [negb fst snd].
  - match goal with
    | |- context [List.fold_left ?f ?rs ?l0] =>
        destruct (loop_calls props (normalizedTargetRef st) now rs l0)
          as (new & Hc & Hsub & Hrep & Hnd & Hs & Hm & Hms)
    end.
    cbn [calls processed app] in Hc, Hsub, Hrep. rewrite Hc. cbn [processedStatementsRef].
    repeat split; done.
  - repeat split; try done; cbn; try lia; constructor.
Qed.

(** However many results an event delivers, the handler reports at most
    one statement and at most one match for each final one, and with the
    listener in place never more matches than statements. *)
Theorem calls_bounded_by_final_results props st now event :
  statementsSpoken (snd (handleResult props st now event))
  <= length (finalResults event)
  /\ matchesReported (snd (handleResult props st now event))
     <= (if hasOnStatementSpoken props
         then statementsSpoken (snd (handleResult props st now event))
         else length (finalResults event)).
Proof.
  destruct (handleResult_calls props st now event)
    as (_ & _ & _ & Hs & Hm & Hms).
  split; [exact Hs|].
  destruct (hasOnStatementSpoken props); [by apply Hms|exact Hm].
Qed.

(** The handler never takes a key off the record, whatever the event
    and whether or not it reports anything; and every statement it
    reports is not blank, carries the verdict of [checkMatch] on the
    target, was not on record in the time window of the event and is on
    record after it. *)
Theorem reported_statement_recorded props st now event :
  processedStatementsRef st
    ⊆ processedStatementsRef (fst (handleResult props st now event))
  /\ (forall statement verdict,
        In (onStatementSpoken statement verdict)
          (snd (handleResult props st now event)) ->
        verdict = checkMatch (normalizedTargetRef st) statement
        /\ isEmpty statement = false
        /\ (statementKey (normalize statement) (timeWindowOf now)
            ∉ processedStatementsRef st)
        /\ (statementKey (normalize statement) (timeWindowOf now)
            ∈ processedStatementsRef (fst (handleResult props st now event)))).
Proof.
  destruct (handleResult_calls props st now event) as (Hsub & Hrep & _).
  split; [exact Hsub|]. intros statement verdict Hin.
  rewrite List.Forall_forall in Hrep. exact (Hrep _ Hin).
Qed.

Lemma reported_statement_recorded_witness :
  let props := {| hasOnStatementSpoken := true |} in
  let quiet := {| hasOnStatementSpoken := false |} in
  let st := mounted (js "red lorry yellow lorry") in
  let event := {| resultIndex := 1;
                  results := [ {| transcript := js "old news"; isFinal := true |};
                               {| transcript := js " Red lorry "; isFinal := true |};
                               {| transcript := js "yellow"; isFinal := false |} ] |} in
  let heard := fst (handleResult props st 4200 event) in
  In (onStatementSpoken (js "Red lorry") true) (snd (handleResult props st 4200 event))
  /\ true = checkMatch (normalizedTargetRef st) (js "Red lorry")
  /\ (statementKey (normalize (js "Red lorry")) (timeWindowOf 4200)
      ∈ processedStatementsRef heard)
  /\ snd (handleResult quiet heard 9000 (finalUtterance (js "blue"))) = []
  /\ processedStatementsRef heard
       ⊆ processedStatementsRef
           (fst (handleResult quiet heard 9000 (finalUtterance (js "blue")))).
Proof.
  intros props quiet st event heard.
  assert (Hin : In (onStatementSpoken (js "Red lorry") true)
                  (snd (handleResult props st 4200 event)))
    by (vm_compute; left; reflexivity).
  split; [exact Hin|].
  destruct (reported_statement_recorded props st 4200%N event) as (_ & Hrep).
  destruct (Hrep _ _ Hin) as (Hv & _ & _ & Hi).
  split; [exact Hv|]. split; [exact Hi|].
  split; [vm_compute; reflexivity|].
  exact (proj1 (reported_statement_recorded quiet heard 9000%N
                  (finalUtterance (js "blue")))).
Defined.

(** Within one event no two statements reported have the same normal
    form: a phrase the recognizer delivers twice in a batch counts
    once. *)
Theorem one_report_per_normal_form props st now event :
  List.NoDup
    (List.map normalize (statementsOf (snd (handleResult props st now event)))).
Proof.
  destruct (handleResult_calls props st now event) as (_ & _ & Hnd & _).
  rewrite <- (List.map_map normalize
                (fun n => statementKey n (timeWindowOf now))) in Hnd.
  by apply List.NoDup_map_inv in Hnd.
Qed.

(** An event whose results are all interim calls nobody and records
    nothing: it only puts their trimmed transcripts, joined, on display,
    when that text is not empty. *)
Theorem interim_results_only_display props st now event :
  isMountedRef st = true ->
  Forall (fun r => isFinal r = false)
    (List.skipn (resultIndex event) (results event)) ->
  handleResult props st now event
  = ({| isMountedRef := isMountedRef st;
        normalizedTargetRef := normalizedTargetRef st;
        processedStatementsRef := processedStatementsRef st;
        lastProcessedTimeRef := lastProcessedTimeRef st;
        displayTranscript :=
          (let text :=
             List.concat
               (List.map (fun r => trim (transcript r))
                  (List.skipn (resultIndex event) (results event))) in
           if isEmpty text then displayTranscript st else text);
        matchSuccess := matchSuccess st |},
     []).
Proof.
  intros Hm Hrs. unfold handleResult. rewrite Hm. cbn [negb].
  rewrite (loop_interim _ _ _ _ _ Hrs). by cbn.
Qed.

Lemma interim_results_only_display_witness :
  let props := {| hasOnStatementSpoken := true |} in
  let st := mounted (js "red lorry yellow lorry") in
  let event := {| resultIndex := 0;
                  results := [ {| transcript := js " red lorry"; isFinal := false |};
                               {| transcript := js " yellow "; isFinal := false |} ] |} in
  snd (handleResult props st 4200 event) = []
  /\ displayTranscript (fst (handleResult props st 4200 event)) = js "red lorryyellow"
  /\ processedStatementsRef (fst (handleResult props st 4200 event)) = ∅.
Proof.
  intros props st event.
  rewrite (interim_results_only_display props st 4200%N event).
  - split; [reflexivity|]. split; [vm_compute; reflexivity|reflexivity].
  - reflexivity.
  - subst event. cbn. repeat constructor.
Defined.

End Handler.

Section KeyScheme.

Lemma split_at_first (x : N) (l1 l2 r1 r2 : list N) :
  ~ In x l1 -> ~ In x l2 ->
  l1 ++ x :: r1 = l2 ++ x :: r2 -> l1 = l2 /\ r1 = r2.
Proof.
  revert l2. induction l1 as [|a l1 IH]; intros [|b l2] H1 H2 Heq; cbn in *.
  - by injection Heq.
  - injection Heq as <- _. tauto.
  - injection Heq as -> _. tauto.
  - injection Heq as -> Heq. destruct (IH l2) as [-> ->]; tauto.
Qed.

Lemma underscore_not_canonical (s : jsstring) :
  Forall (fun c => isCanonical c = true) s -> ~ In 95%N s.
Proof.
  intros Hs Hin. rewrite List.Forall_forall in Hs.
  specialize (Hs _ Hin). vm_compute in Hs. discriminate.
Qed.

(** The key [`${normalizedText}_${timeWindow}`] tells apart any two
    different pairs of a normal form and a time window: a normal form
    holds no underscore, so no two statements share a key by accident. *)
Theorem statementKey_injective (a b : jsstring) (w w' : N) :
  statementKey (normalize a) w = statementKey (normalize b) w' ->
  normalize a = normalize b /\ w = w'.
Proof.
  unfold statementKey. cbn [app]. intros H.
  apply split_at_first in H as [Hn Hd];
    [|apply underscore_not_canonical, normalize_canonical..].
  split; [exact Hn|]. by apply numberToString_inj.
Qed.

Lemma statementKey_injective_witness :
  statementKey (normalize (js "Red Lorry!")) (timeWindowOf 4200)
  = statementKey (normalize (js " red lorry ")) (timeWindowOf 5999)
  /\ normalize (js "Red Lorry!") = normalize (js " red lorry ")
  /\ timeWindowOf 4200 = timeWindowOf 5999.
Proof.
  assert (H : statementKey (normalize (js "Red Lorry!")) (timeWindowOf 4200)
              = statementKey (normalize (js " red lorry ")) (timeWindowOf 5999))
    by (vm_compute; reflexivity).
  split; [exact H|]. exact (statementKey_injective _ _ _ _ H).
Defined.

End KeyScheme.

(** ** The recognition session *)

#[local] Arguments handleResult : simpl never.

Section Lifecycle.

Implicit Types (props : VoiceInputProps) (engine : Engine) (c : Component)
  (s : Signal).

(** The start-and-stop effect cannot loop: a run that has changed
    [isRecording] (a double start taken as started, or a stop) is followed
    by a run that does nothing. *)
Theorem listeningEffect_settles props engine c :
  isRecording (fst (listeningEffect props engine c)) <> isRecording c ->
  listeningEffect props engine (fst (listeningEffect props engine c))
  = (fst (listeningEffect props engine c), []).
Proof.
  destruct c as [v rec att err rr], props as [listening phrase cb],
    engine as [[|[|]] [|]];
    destruct rr, listening, rec, att; cbn; intros H; done.
Qed.

Lemma listeningEffect_settles_witness :
  let props := {| isListening := true; targetPhrase := js "red lorry";
                  callbacks := {| hasOnStatementSpoken := true |} |} in
  let engine := {| onStartCall := startThrows InvalidStateError;
                   onStopCall := stops |} in
  let c := setRecognition true created in
  isRecording (fst (listeningEffect props engine c)) = true
  /\ listeningEffect props engine (fst (listeningEffect props engine c))
     = (fst (listeningEffect props engine c), []).
Proof.
  intros props engine c. split; [reflexivity|].
  apply listeningEffect_settles. cbn. discriminate.
Defined.

Lemma afterRender_same props engine c :
  afterRender props engine (isRecording c) c = (c, []).
Proof. unfold afterRender. by rewrite Bool.eqb_reflx. Qed.

Lemma outputsOf_not_starting (cs : list Call) :
  List.forallb (fun o => negb (startsOrSchedules o)) (outputsOf cs) = true.
Proof. induction cs as [|[statement m|] cs IH]; cbn; done. Qed.

Lemma matchTimeouts_outputsOf (cs : list Call) :
  matchTimeouts (outputsOf cs) = matchesReported cs.
Proof.
  unfold matchTimeouts, matchesReported.
  induction cs as [|[statement m|] cs IH]; [done| |]; cbn.
  - exact IH.
  - f_equal. exact IH.
Qed.

(** A component that is not listening never starts the recognizer and
    sets none of the timeouts that start it, whatever reaches it, save a
    call of [start] on its handle or a retry timeout still pending.  The
    one timeout it does set is that of 500 ms after a match: one for each
    match that the results of an event report, listening or not, and none
    on any other signal. *)
Theorem not_listening_never_starts props engine s c :
  isListening props = false ->
  s <> startCalled -> s <> timeout retryTimer ->
  List.forallb (fun o => negb (startsOrSchedules o))
    (snd (react props engine s c)) = true
  /\ matchTimeouts (snd (react props engine s c))
     = match s with
       | result now event =>
           matchesReported
             (snd (handleResult (callbacks props) (voice c) now event))
       | _ => 0
       end.
Proof.
  intros Hl Hs1 Hs2. unfold react.
  destruct props as [listening phrase cb]. cbn in Hl. subst listening.
  destruct s as [| |code|now event|[|]| | | |]; try done; cbn [handle].
  - (* started *)
    destruct c as [v rec att err rr], engine as [so [|]];
      unfold onstart, afterRender, listeningEffect; cbn;
      destruct (isMountedRef v), rec, rr; cbn; done.
  - (* ended *)
    destruct c as [v rec att err rr], engine as [so [|]];
      unfold onend, afterRender, listeningEffect; cbn;
      destruct (isMountedRef v), rec, rr; cbn; done.
  - (* failedWith *)
    destruct c as [v rec att err rr], engine as [so [|]];
      unfold onerror, afterRender, listeningEffect; cbn;
      destruct (isMountedRef v), rec, rr, code; cbn; done.
  - (* result *)
    unfold onresult. cbn [callbacks].
    destruct (handleResult cb (voice c) now event) as [v cs].
    change (isRecording c) with (isRecording (setVoice v c)).
    rewrite afterRender_same, app_nil_r. cbn [snd].
    split; [apply outputsOf_not_starting|apply matchTimeouts_outputsOf].
  - (* restart timer *)
    unfold restart. cbn. rewrite afterRender_same. done.
  - (* the timeout after a match *)
    unfold clearMatch.
    destruct (isMountedRef (voice c)); [|by rewrite afterRender_same].
    change (isRecording c)
      with (isRecording (setVoice (setMatchSuccess false (voice c)) c)).
    by rewrite afterRender_same.
  - (* try again *)
    destruct (showsError c); [|by rewrite afterRender_same].
    unfold tryAgain. cbn.
    change (isRecording c) with (isRecording (setError None c)).
    by rewrite afterRender_same.
  - (* stop *)
    destruct c as [v rec att err rr], engine as [so [|]];
      unfold handleStop, afterRender, listeningEffect; cbn;
      destruct rec, rr; cbn; done.
Qed.

Lemma not_listening_never_starts_witness :
  let props := {| isListening := false; targetPhrase := js "red lorry";
                  callbacks := {| hasOnStatementSpoken := false |} |} in
  let engine := {| onStartCall := starts; onStopCall := stops |} in
  let c := fst (mount props supported engine) in
  let heard := result 4200 (finalUtterance (js "Red lorry")) in
  isListening props = false
  /\ snd (mount props supported engine) = []
  /\ snd (react props engine heard c) = [parent onMatch; setTimeout500]
  /\ List.forallb (fun o => negb (startsOrSchedules o))
       (snd (react props engine heard c)) = true
  /\ matchTimeouts (snd (react props engine heard c))
     = matchesReported
         (snd (handleResult (callbacks props) (voice c) 4200
                 (finalUtterance (js "Red lorry")))).
Proof.
  intros props engine c heard. split; [reflexivity|]. split; [reflexivity|].
  split; [vm_compute; reflexivity|].
  apply (not_listening_never_starts props engine heard c);
    [reflexivity|discriminate|discriminate].
Defined.

(** Once unmounted the component is deaf to the recognizer: no signal
    the recognizer drives changes it, calls the parent or touches the
    recognizer. *)
Theorem unmounted_component_silent props engine engine' s c :
  engineDriven s = true ->
  react props engine' s (fst (unmount engine c))
  = (fst (unmount engine c), []).
Proof.
  intros Hs. unfold react, unmount. cbn [fst].
  destruct c as [[m t p lp d ms] rec att err rr].
  destruct s as [| |code|now event|[|]| | | |]; try discriminate;
    unfold handle, onstart, onend, onerror, onresult, handleResult, restart,
      clearMatch, afterRender;
    cbn; rewrite ?andb_false_r, ?Bool.eqb_reflx; cbn;
    rewrite ?Bool.eqb_reflx; done.
Qed.

Lemma unmounted_component_silent_witness :
  let props := {| isListening := true; targetPhrase := js "red lorry";
                  callbacks := {| hasOnStatementSpoken := true |} |} in
  let engine := {| onStartCall := starts; onStopCall := stops |} in
  let c := fst (mount props supported engine) in
  snd (unmount engine c) = [engineStop; engineAbort]
  /\ react props engine (result 4200 (finalUtterance (js "red lorry")))
       (fst (unmount engine c))
     = (fst (unmount engine c), []).
Proof.
  intros props engine c. split; [reflexivity|].
  apply unmounted_component_silent. reflexivity.
Defined.

Lemma react_ended_recording props engine c :
  isListening props = true ->
  isMountedRef (voice c) = true ->
  recognitionRef c = true ->
  isRecording c = true ->
  startAttemptRef c = false ->
  processedStatementsRef (voice (fst (react props engine ended c))) = ∅
  /\ isMountedRef (voice (fst (react props engine ended c))) = true.
Proof.
  destruct c as [[m t p lp d ms] rec att err rr],
    props as [listening phrase cb]. cbn.
  intros -> -> -> -> ->.
  destruct engine as [[|[|]] so]; cbn; done.
Qed.

(** When the recognizer ends on a component that listens and had heard it
    start, it is the effect that starts it again, at once and with no
    timeout, and the start wipes the record of processed statements. *)
Theorem end_while_listening_restarts props engine c :
  isListening props = true ->
  isMountedRef (voice c) = true ->
  recognitionRef c = true ->
  isRecording c = true ->
  startAttemptRef c = false ->
  snd (react props engine ended c) = [engineStart]
  /\ processedStatementsRef (voice (fst (react props engine ended c))) = ∅
  /\ isMountedRef (voice (fst (react props engine ended c))) = true.
Proof.
  destruct c as [[m t p lp d ms] rec att err rr],
    props as [listening phrase cb]. cbn.
  intros -> -> -> -> ->.
  destruct engine as [[|[|]] so]; cbn; done.
Qed.

Lemma end_while_listening_restarts_witness :
  let props := {| isListening := true; targetPhrase := js "red lorry";
                  callbacks := {| hasOnStatementSpoken := true |} |} in
  let engine := {| onStartCall := starts; onStopCall := stops |} in
  let c := fst (react props engine started (fst (mount props supported engine))) in
  snd (mount props supported engine) = [engineStart]
  /\ isRecording c = true
  /\ snd (react props engine ended c) = [engineStart].
Proof.
  intros props engine c. split; [reflexivity|]. split; [reflexivity|].
  apply (end_while_listening_restarts props engine c); reflexivity.
Defined.

Lemma spoken_outputsOf (cs : list Call) :
  spoken (outputsOf cs) = statementsOf cs.
Proof.
  unfold spoken, statementsOf, outputsOf.
  induction cs as [|[statement verdict|] cs IH]; cbn; by rewrite ?IH.
Qed.

Lemma statementsOf_fresh (statement : jsstring) (verdict : bool) :
  statementsOf ([onStatementSpoken statement verdict]
                ++ (if verdict then [onMatch] else [])) = [statement].
Proof. by destruct verdict. Qed.

(** A result on a mounted component whose record is empty: a final
    utterance that is not blank is reported. *)
Lemma onresult_fresh props now (text : jsstring) c :
  hasOnStatementSpoken (callbacks props) = true ->
  isMountedRef (voice c) = true ->
  processedStatementsRef (voice c) = ∅ ->
  isEmpty (trim text) = false ->
  snd (onresult props now (finalUtterance text) c)
  = outputsOf
      ([onStatementSpoken (trim text)
          (checkMatch (normalizedTargetRef (voice c)) (trim text))]
       ++ (if checkMatch (normalizedTargetRef (voice c)) (trim text)
           then [onMatch] else [])).
Proof.
  intros Hl Hm Hp Hb. unfold onresult.
  destruct (handleResult_fresh (callbacks props) (voice c) now text Hm Hb)
    as (Hc & _ & _); [rewrite Hp; apply not_elem_of_empty|].
  destruct (handleResult _ _ _ _) as [v calls]. cbn in Hc |- *.
  by rewrite Hc, Hl.
Qed.

(** The start signal on a mounted, listening component: it is recording,
    and what it has heard is untouched. *)
Lemma react_started props engine c :
  isListening props = true ->
  isMountedRef (voice c) = true ->
  voice (fst (react props engine started c)) = voice c
  /\ isRecording (fst (react props engine started c)) = true.
Proof.
  destruct c as [v rec att err rr], props as [listening phrase cb],
    engine as [so sp]. cbn.
  intros -> Hm. unfold react, handle, onstart, afterRender, listeningEffect.
  cbn. rewrite Hm. destruct rec, rr; cbn; done.
Qed.

(** So a restart of the recognizer makes the component forget what it has
    heard: after the recognizer has ended and started again, a final
    utterance that is not blank is reported whether or not it had just
    been counted in the same time window. *)
Theorem restart_forgets_processed props engine c now (text : jsstring) :
  isListening props = true ->
  hasOnStatementSpoken (callbacks props) = true ->
  isMountedRef (voice c) = true ->
  recognitionRef c = true ->
  isRecording c = true ->
  startAttemptRef c = false ->
  isEmpty (trim text) = false ->
  spoken (snd (react props engine (result now (finalUtterance text))
                 (fst (react props engine started
                         (fst (react props engine ended
                                 (fst (react props engine
                                         (result now (finalUtterance text)) c))))))))
  = [trim text].
Proof.
  intros Hl Hcb Hm Hr Hrec Hatt Hb.
  set (c1 := fst (react props engine (result now (finalUtterance text)) c)).
  assert (H1 : isMountedRef (voice c1) = true /\ recognitionRef c1 = true
               /\ isRecording c1 = true /\ startAttemptRef c1 = false).
  { subst c1. unfold react. cbn [handle]. unfold onresult.
    destruct (isEmpty (trim text)) eqn:Hb'; [done|].
    destruct (decide (statementKey (normalize text) (timeWindowOf now)
                      ∈ processedStatementsRef (voice c))) as [Hin|Hin].
    - destruct (handleResult_duplicate (callbacks props) (voice c) now text Hm Hb' Hin)
        as (_ & _ & Hm').
      destruct (handleResult _ _ _ _) as [v calls]. cbn in Hm'.
      change (isRecording c) with (isRecording (setVoice v c)).
      rewrite afterRender_same. by cbn.
    - destruct (handleResult_fresh (callbacks props) (voice c) now text Hm Hb' Hin)
        as (_ & _ & Hm').
      destruct (handleResult _ _ _ _) as [v calls]. cbn in Hm'.
      change (isRecording c) with (isRecording (setVoice v c)).
      rewrite afterRender_same. by cbn. }
  destruct H1 as (Hm1 & Hr1 & Hrec1 & Hatt1).
  destruct (react_ended_recording props engine c1 Hl Hm1 Hr1 Hrec1 Hatt1)
    as (Hp2 & Hm2).
  set (c2 := fst (react props engine ended c1)) in *.
  set (c3 := fst (react props engine started c2)).
  destruct (react_started props engine c2 Hl Hm2) as (Hv3 & Hrec3).
  fold c3 in Hv3, Hrec3.
  unfold react. cbn [handle].
  pose proof (onresult_fresh props now text c3 Hcb) as Hout.
  rewrite Hv3 in Hout. specialize (Hout Hm2 Hp2 Hb).
  destruct (onresult props now (finalUtterance text) c3) as [c4 out4] eqn:Hon.
  assert (Hrec4 : isRecording c4 = isRecording c3).
  { unfold onresult in Hon. destruct (handleResult _ _ _ _) as [v calls].
    by injection Hon as <- _. }
  rewrite <- Hrec4, afterRender_same, app_nil_r. cbn [snd] in *.
  by rewrite Hout, spoken_outputsOf, statementsOf_fresh.
Qed.

Lemma restart_forgets_processed_witness :
  let props := {| isListening := true; targetPhrase := js "red lorry";
                  callbacks := {| hasOnStatementSpoken := true |} |} in
  let engine := {| onStartCall := starts; onStopCall := stops |} in
  let c := fst (react props engine started (fst (mount props supported engine))) in
  let heard := result 4200 (finalUtterance (js "Red lorry")) in
  spoken (snd (react props engine heard c)) = [js "Red lorry"]
  /\ spoken (snd (react props engine heard (fst (react props engine heard c)))) = []
  /\ spoken (snd (react props engine heard
                    (fst (react props engine started
                            (fst (react props engine ended
                                    (fst (react props engine heard c))))))))
     = [js "Red lorry"].
Proof.
  intros props engine c heard.
  split; [vm_compute; reflexivity|]. split; [vm_compute; reflexivity|].
  subst heard.
  rewrite (restart_forgets_processed props engine c 4200%N (js "Red lorry")).
  - vm_compute. reflexivity.
  - reflexivity.
  - reflexivity.
  - reflexivity.
  - reflexivity.
  - reflexivity.
  - reflexivity.
  - vm_compute. reflexivity.
Defined.

(** A change of target phrase makes the component forget as well: the
    next final utterance that is not blank is reported, whatever was on
    record, and judged against the new target; when it matches, the
    match is reported too and the timeout of 500 ms set. *)
Theorem target_change_forgets props now (text : jsstring) c :
  hasOnStatementSpoken (callbacks props) = true ->
  isMountedRef (voice c) = true ->
  isEmpty (trim text) = false ->
  snd (onresult props now (finalUtterance text) (targetPhraseEffect props c))
  = parent (onStatementSpoken (trim text)
              (checkMatch (normalize (targetPhrase props)) (trim text)))
    :: (if checkMatch (normalize (targetPhrase props)) (trim text)
        then [parent onMatch; setTimeout500] else []).
Proof.
  intros Hl Hm Hb.
  rewrite (onresult_fresh props now text (targetPhraseEffect props c) Hl);
    [|exact Hm|reflexivity|exact Hb].
  cbn [targetPhraseEffect voice setVoice clearProcessed setNormalizedTarget
       normalizedTargetRef].
  by destruct (checkMatch _ _).
Qed.

Lemma target_change_forgets_witness :
  let props := {| isListening := true; targetPhrase := js "Red lorry, yellow lorry";
                  callbacks := {| hasOnStatementSpoken := true |} |} in
  let c := fst (onresult props 4200 (finalUtterance (js "red lorry yellow lorry"))
                  (setVoice (mounted (js "Unique New York")) created)) in
  snd (onresult props 4200 (finalUtterance (js "red lorry yellow lorry")) c) = []
  /\ snd (onresult props 4200 (finalUtterance (js "red lorry yellow lorry"))
            (targetPhraseEffect props c))
     = [parent (onStatementSpoken (js "red lorry yellow lorry") true);
        parent onMatch; setTimeout500].
Proof.
  intros props c. split; [vm_compute; reflexivity|].
  rewrite (target_change_forgets props 4200%N (js "red lorry yellow lorry") c).
  - vm_compute. reflexivity.
  - reflexivity.
  - vm_compute. reflexivity.
  - vm_compute. reflexivity.
Defined.

(** Of the error codes of the recognizer, a denied permission, a missing
    microphone and a network error bring up the error panel; no speech,
    an abort and any other code leave what is shown as it was.  Every one
    of them ends the recording and the pending start. *)
Theorem error_panel_by_code (code : ErrorCode) c :
  isMountedRef (voice c) = true ->
  showsError (onerror code c)
  = match code with
    | not_allowed | audio_capture | network => true
    | no_speech | aborted | otherCode _ => showsError c
    end
  /\ isRecording (onerror code c) = false
  /\ startAttemptRef (onerror code c) = false.
Proof.
  intros Hm. unfold onerror. rewrite Hm. cbn [negb].
  destruct code; cbn [isRecording startAttemptRef setError setStartAttempt
                      setIsRecording]; (split; [|done]);
    unfold showsError; cbn [error setError setStartAttempt setIsRecording];
    try done; vm_compute; reflexivity.
Qed.

Lemma error_panel_by_code_witness :
  let c := fst (mount {| isListening := true; targetPhrase := js "red lorry";
                         callbacks := {| hasOnStatementSpoken := true |} |}
                  supported {| onStartCall := starts; onStopCall := stops |}) in
  isMountedRef (voice c) = true
  /\ showsError (onerror not_allowed c) = true
  /\ showsError (onerror no_speech c) = false.
Proof.
  intros c. split; [reflexivity|]. split.
  - apply (error_panel_by_code not_allowed c). reflexivity.
  - destruct (error_panel_by_code no_speech c) as (-> & _); reflexivity.
Defined.

(** Try Again, on a listening component that shows an error: the click
    clears the error and sets a timeout, and the timeout starts the
    recognizer with the start marked as pending. *)
Theorem try_again_restarts props engine c :
  showsError c = true ->
  isListening props = true ->
  recognitionRef c = true ->
  snd (react props engine tryAgainClicked c) = [setTimeout100 retryTimer]
  /\ error (fst (react props engine tryAgainClicked c)) = None
  /\ snd (react props engine (timeout retryTimer)
            (fst (react props engine tryAgainClicked c))) = [engineStart]
  /\ startAttemptRef (fst (react props engine (timeout retryTimer)
                             (fst (react props engine tryAgainClicked c)))) = true.
Proof.
  intros Hs Hl Hr. unfold react. cbn [handle]. rewrite Hs.
  unfold tryAgain. cbn [recognitionRef setError]. rewrite Hl, Hr. cbn [andb].
  change (isRecording c)
    with (isRecording (setStartAttempt false (setError None c))).
  rewrite afterRender_same. cbn [fst snd app].
  unfold retry. cbn [recognitionRef setStartAttempt setError]. rewrite Hr.
  change (isRecording (setStartAttempt false (setError None c)))
    with (isRecording (setStartAttempt true (setStartAttempt false (setError None c)))).
  rewrite afterRender_same. by cbn.
Qed.

Lemma try_again_restarts_witness :
  let props := {| isListening := true; targetPhrase := js "red lorry";
                  callbacks := {| hasOnStatementSpoken := true |} |} in
  let engine := {| onStartCall := starts; onStopCall := stops |} in
  let c := fst (react props engine (failedWith network)
                  (fst (mount props supported engine))) in
  showsError c = true
  /\ snd (react props engine tryAgainClicked c) = [setTimeout100 retryTimer]
  /\ snd (react props engine (timeout retryTimer)
            (fst (react props engine tryAgainClicked c))) = [engineStart].
Proof.
  intros props engine c.
  assert (Hs : showsError c = true) by (vm_compute; reflexivity).
  split; [exact Hs|].
  destruct (try_again_restarts props engine c Hs eq_refl eq_refl)
    as (H1 & _ & H2 & _).
  split; [exact H1|exact H2].
Defined.

End Lifecycle.

(** ** The route and the service together *)

Section Service.

Implicit Types (key : option jsstring) (complete : Json -> Completion)
  (parse : jsstring -> option Json) (body : Body).

Lemma configured_spec key :
  match key with Some k => isEmpty k | None => true end = negb (configured key).
Proof. destruct key as [k|]; cbn; [by destruct (isEmpty k)|done]. Qed.

(** What [POST] answers once it runs: status 200 or 500, and 500 exactly
    when the body of the request could be read and [OPENAI_API_KEY] is
    not set. *)
Lemma POST_answers key complete parse body :
  (statusCode (POST key complete parse body) = 200%N
   \/ statusCode (POST key complete parse body) = 500%N)
  /\ (statusCode (POST key complete parse body) = 500%N
      <-> configured key = false
          /\ exists difficulty, requestDifficulty body = inr difficulty)
  /\ (statusCode (POST key complete parse body) = 500%N ->
      POST key complete parse body = notConfigured).
Proof.
  unfold POST, bind. rewrite configured_spec.
  destruct (requestDifficulty body) as [e|difficulty] eqn:Hd.
  - cbn. split; [by left|]. split; [|done].
    split; [done|]. by intros (_ & d & [=]).
  - destruct (configured key); cbn [negb].
    + assert (Hok : statusCode
                      match match complete difficulty with
                            | CallRejected => throw (ApiError (js "request failed"))
                            | Completed content =>
                                match content with
                                | Some text =>
                                    if isEmpty text
                                    then throw (ApiError (js "No response content from OpenAI"))
                                    else match parse text with
                                         | Some twister =>
                                             ret {| statusCode := 200; payload := twister |}
                                         | None => throw SyntaxError
                                         end
                                | None => throw (ApiError (js "No response content from OpenAI"))
                                end
                            end with
                      | inl _ => {| statusCode := 200; payload := fallback |}
                      | inr response => response
                      end = 200%N).
      { destruct (complete difficulty) as [|[text|]]; [done| |done].
        destruct (isEmpty text); [done|]. by destruct (parse text). }
      rewrite Hok. split; [by left|]. split; [|done].
      split; [done|]. by intros ([=] & _).
    + cbn. split; [by right|]. split; [|done].
      split; [|done]. intros _. split; [done|]. by exists difficulty.
Qed.

(** The route answers a request exactly when the module has loaded, that
    is when the constructor of the client has returned on the key it was
    given, [OPENAI_API_KEY] or else [API_KEY].  It then answers with
    status 200 or 500, and with 500 exactly when the body of the request
    could be read and [OPENAI_API_KEY] is not set.  That answer says that
    the key is not configured; it is only ever given by a module whose
    client was built with [API_KEY], which [POST] does not look at. *)
Theorem route_status (OpenAI : option jsstring -> bool) key (altKey : option jsstring)
    complete parse body :
  match route OpenAI key altKey complete parse body with
  | None => OpenAI (apiKey key altKey) = false
  | Some response =>
      OpenAI (apiKey key altKey) = true
      /\ (statusCode response = 200%N \/ statusCode response = 500%N)
      /\ (statusCode response = 500%N
          <-> configured key = false
              /\ exists difficulty, requestDifficulty body = inr difficulty)
      /\ (statusCode response = 500%N ->
          response = notConfigured /\ OpenAI altKey = true)
  end.
Proof.
  unfold route. destruct (OpenAI (apiKey key altKey)) eqn:Hload; [|done].
  destruct (POST_answers key complete parse body) as (Hst & Hiff & Hnc).
  split; [done|]. split; [exact Hst|]. split; [exact Hiff|].
  intros H500. split; [by apply Hnc|].
  apply Hiff in H500 as [Hk _]. unfold apiKey in Hload. by rewrite Hk in Hload.
Qed.

Lemma route_status_witness :
  let OpenAI := fun k : option jsstring =>
                  match k with Some k => negb (isEmpty k) | None => false end in
  let complete := fun _ : Json => CallRejected in
  let parse := fun _ : jsstring => @None Json in
  route OpenAI None None complete parse (requestOf (js "Hard")) = None
  /\ route OpenAI None (Some (js "sk-alt")) complete parse (requestOf (js "Hard"))
     = Some notConfigured.
Proof.
  intros OpenAI complete parse. split; [reflexivity|].
  pose proof (route_status OpenAI None (Some (js "sk-alt")) complete parse
                (requestOf (js "Hard"))) as H.
  assert (Hr : route OpenAI None (Some (js "sk-alt")) complete parse
                 (requestOf (js "Hard"))
               = Some (POST None complete parse (requestOf (js "Hard"))))
    by reflexivity.
  rewrite Hr in H |- *. destruct H as (_ & _ & _ & H).
  exact (f_equal Some (proj1 (H eq_refl))).
Defined.

(** A request whose body cannot be read (not JSON, or [null]) is answered
    with the fallback twister and status 200 by every module that has
    loaded, whether or not [OPENAI_API_KEY] is set: the body is read
    before the key is looked at.  A module whose constructor has thrown
    gives no answer. *)
Theorem unreadable_request_gets_fallback (OpenAI : option jsstring -> bool)
    key (altKey : option jsstring) complete parse body (e : Exception) :
  requestDifficulty body = inl e ->
  route OpenAI key altKey complete parse body
  = if OpenAI (apiKey key altKey)
    then Some {| statusCode := 200; payload := fallback |}
    else None.
Proof.
  intros H. unfold route, POST, bind. rewrite H.
  by destruct (OpenAI _).
Qed.

Lemma unreadable_request_gets_fallback_witness :
  let OpenAI := fun k : option jsstring =>
                  match k with Some k => negb (isEmpty k) | None => false end in
  let complete := fun _ : Json => CallRejected in
  let parse := fun _ : jsstring => @None Json in
  requestDifficulty (Parsed JNull) = inl TypeError
  /\ route OpenAI None (Some (js "sk-alt")) complete parse (Parsed JNull)
     = Some {| statusCode := 200; payload := fallback |}
  /\ route OpenAI None None complete parse (Parsed JNull) = None.
Proof.
  intros OpenAI complete parse. split; [reflexivity|].
  split.
  - by rewrite (unreadable_request_gets_fallback OpenAI None (Some (js "sk-alt"))
                  complete parse (Parsed JNull) TypeError).
  - by rewrite (unreadable_request_gets_fallback OpenAI None None
                  complete parse (Parsed JNull) TypeError).
Defined.

(** With the key set the route answers 200 with the twister parsed from
    the content of the completion, asked with the difficulty of the
    request (Medium when the request names none), and with the fallback
    when the call fails, or the content is missing, empty or not JSON. *)
Theorem POST_payload key complete parse body (difficulty : Json) :
  configured key = true ->
  requestDifficulty body = inr difficulty ->
  POST key complete parse body
  = {| statusCode := 200;
       payload := match twisterIn parse (complete difficulty) with
                  | Some twister => twister
                  | None => fallback
                  end |}.
Proof.
  intros Hk Hd. unfold POST, bind, twisterIn.
  rewrite Hd, configured_spec, Hk. cbn [negb].
  destruct (complete difficulty) as [|[text|]]; [done| |done].
  destruct (isEmpty text); [done|]. by destruct (parse text).
Qed.

Lemma POST_payload_witness :
  let twister := JObject [(js "text", JString (js "She sells sea shells."))] in
  let complete := fun _ : Json => Completed (Some (js "{...}")) in
  let parse := fun _ : jsstring => Some twister in
  requestDifficulty (Parsed (JObject [])) = inr (JString (js "Medium"))
  /\ POST (Some (js "sk-test")) complete parse (Parsed (JObject []))
     = {| statusCode := 200; payload := twister |}.
Proof.
  intros twister complete parse. split; [reflexivity|].
  by rewrite (POST_payload (Some (js "sk-test")) complete parse
                (Parsed (JObject [])) (JString (js "Medium"))).
Defined.

(** End to end: through the route, [generateTwister] resolves to the
    twister parsed from the completion the service gave for the
    difficulty asked, when the key is set and there is one, and to the
    fallback twister in every other case; the answer 500 of a route
    without key never reaches the game. *)
Theorem generateTwister_through_route key complete parse
    (statusText difficulty : jsstring) :
  generateTwister
    (fun d => delivered statusText (POST key complete parse (requestOf d)))
    difficulty
  = Resolved
      (if configured key
       then match twisterIn parse (complete (JString difficulty)) with
            | Some twister => twister
            | None => fallback
            end
       else fallback).
Proof.
  assert (Hd : requestDifficulty (requestOf difficulty) = inr (JString difficulty)).
  { unfold requestDifficulty, requestOf, getField. cbn.
    by destruct (decide _). }
  unfold generateTwister, awaitFetch, awaitJson, delivered, bind, ret, throw.
  unfold POST, bind, twisterIn. rewrite Hd, configured_spec.
  destruct (configured key); cbn [negb]; [|done].
  destruct (complete (JString difficulty)) as [|[text|]]; [done| |done].
  destruct (isEmpty text); [done|]. by destruct (parse text).
Qed.

End Service.

(** ** The game *)

Section Game.

Implicit Types (g : Game) (e : Event) (now : Z).

(** Closes the cases of [roundInvariant_step] in which the handler sets
    the score to 0. *)
Ltac settle_round Hinv :=
  repeat match type of Hinv with _ /\ _ => destruct Hinv as [? Hinv] end;
  subst; try done;
  change (TARGET_SCORE <=? 0)%N with false;
  cbn [Status_eqb negb andb orb];
  rewrite ?andb_false_r; cbn [negb andb orb Status_eqb];
  repeat split; done.

(** What a render leaves of the status, the interval and the flag, with
    [wins] telling whether the win-condition effect has fired.  (The
    effect that resets the flag runs after it in the same commit, so a
    win in the very render that changed the status would leave the flag
    down.) *)
Lemma render_fields g0 g now :
  let changed :=
    negb (Status_eqb (status (gameState g0)) (status (gameState g))) in
  let wins :=
    (negb (score (gameState g0) =? score (gameState g))%N || changed)
    && (TARGET_SCORE <=? score (gameState g))%N
    && Status_eqb (status (gameState g)) playing
    && negb (confettiFiredRef g) in
  status (gameState (render g0 g now))
  = (if wins then success else status (gameState g))
  /\ timerRef (render g0 g now)
     = (if wins then None
        else if changed
             then if Status_eqb (status (gameState g)) playing
                  then Some {| startTime := now;
                               startValue := timeLeft (gameState g) |}
                  else None
             else timerRef g)
  /\ confettiFiredRef (render g0 g now)
     = (if wins then negb changed
        else if changed && negb (Status_eqb (status (gameState g)) success)
             then false
             else confettiFiredRef g).
Proof.
  intros changed wins. unfold render, commit. fold changed. fold wins.
  destruct wins eqn:Hw.
  - assert (Hp : status (gameState g) = playing).
    { unfold wins in Hw. rewrite !andb_true_iff in Hw.
      destruct Hw as [[_ Hp] _]. by apply Status_eqb_eq. }
    cbn. rewrite Hp. cbn. rewrite !andb_false_r. cbn.
    destruct changed; cbn; done.
  - cbn. done.
Qed.

Lemma hasDifficulty_render g0 g now :
  hasDifficulty (render g0 g now) = hasDifficulty g.
Proof. unfold hasDifficulty. by rewrite selectedDifficulty_render. Qed.

Lemma spokenStatements_render g0 g now :
  spokenStatements (render g0 g now) = spokenStatements g.
Proof. unfold render, commit. cbn. by destruct (_ && _). Qed.

Lemma roundInvariant_step g now e :
  roundInvariant g -> roundInvariant (step g now e).
Proof.
  intros Hinv. unfold step. destruct (wired g e) eqn:Hw; [|done].
  unfold roundInvariant.
  destruct (render_fields g (handler now e g) now) as (Hs & Ht & Hf).
  rewrite hasDifficulty_render, score_render,
    timeLeft_render, spokenStatements_render, Hs, Ht, Hf.
  clear Hs Ht Hf.
  destruct g as [d [s sc tl tw] sp tm fl cr].
  unfold roundInvariant, hasDifficulty in Hinv. cbn in Hinv.
  unfold wired, hasDifficulty in Hw. cbn in Hw.
  unfold hasDifficulty.
  destruct e as [d' twister| | |statement m| | |twister];
    cbn [handler setGameState setSpokenStatements setSelectedDifficulty
         startGame handleMatch retrySame fetchNewTwister
         gameState status score timeLeft currentTwister selectedDifficulty
         spokenStatements timerRef confettiFiredRef confettiRuns].
  - (* a difficulty chosen *)
    destruct d as [d|], s; try discriminate Hw; settle_round Hinv.
  - (* start *)
    destruct d as [d|], s; try discriminate Hw; settle_round Hinv.
  - (* match *)
    destruct d as [d|], s; try discriminate Hw.
    destruct Hinv as (Hsc & Htm & -> & _).
    cbn [Status_eqb negb andb orb].
    destruct (N.eqb_spec sc (sc + 1)) as [Heq|_]; [lia|].
    cbn [negb andb orb]. unfold TARGET_SCORE in *.
    destruct (N.leb_spec 5 (sc + 1)) as [Hle|Hlt]; cbn [negb andb orb]; done.
  - (* statement *)
    destruct d as [d|], s; try discriminate Hw.
    destruct Hinv as (Hsc & Htm & -> & _).
    cbn [Status_eqb negb andb orb]. rewrite N.eqb_refl. cbn [negb andb orb].
    done.
  - (* the timer *)
    destruct tm as [t|]; [|discriminate Hw]. clear Hw.
    generalize (newTimeLeft t now). intros z.
    destruct s; try (exfalso; exact Hinv);
      try (by destruct Hinv as (_ & _ & _ & [=] & _));
      try (by destruct Hinv as (_ & [=] & _));
      try (by destruct Hinv as (_ & _ & [=] & _)).
    destruct Hinv as (Hsc & _ & -> & Hd).
    assert (Hlt : (TARGET_SCORE <=? sc)%N = false) by (by apply N.leb_gt).
    unfold tick.
    cbn [setGameState gameState status score timeLeft currentTwister
         selectedDifficulty spokenStatements timerRef confettiFiredRef
         Status_eqb negb].
    destruct (Z.eqb_spec z 0) as [Hz|Hz];
      [|destruct (Z.eqb_spec tl z)];
      cbn [negb andb orb gameState status score timeLeft currentTwister
           Status_eqb];
      rewrite N.eqb_refl, ?Hlt; cbn [negb andb orb]; done.
  - (* retry *)
    destruct d as [d|], s; try discriminate Hw; settle_round Hinv.
  - (* next *)
    destruct d as [d|], s; try discriminate Hw; settle_round Hinv.
Qed.

(** One event of the recognizer keeps the invariant too, however many
    matches it reports: the round is won as soon as the score has
    reached the target, and may have passed it. *)
Lemma roundInvariant_recognized g now (cs : list (Z * Call)) :
  roundInvariant g -> roundInvariant (recognized g now cs).
Proof.
  intros Hinv.
  destruct (wired g Matched) eqn:Hw; [|by unfold recognized; rewrite Hw].
  unfold wired in Hw. apply andb_true_iff in Hw as [Hd Hp].
  apply Status_eqb_eq in Hp.
  unfold roundInvariant in Hinv. rewrite Hp in Hinv.
  destruct Hinv as (Hsc & Htm & Hf & _).
  destruct (recognized_playing cs g now Hd Hp Hf) as (Hgs & Htr & Hfl & Hsd & _).
  destruct (deliver_fields cs g) as (Hs & Hscore & _).
  unfold roundInvariant, hasDifficulty. rewrite Hgs, Htr, Hfl, Hsd.
  unfold hasDifficulty in Hd. rewrite Hd.
  destruct (N.eqb_spec (score (gameState g)) (score (gameState (deliver cs g))))
    as [Heq|Hne]; cbn [negb andb].
  - rewrite Hs, Hp. rewrite <- Heq. done.
  - destruct (N.leb_spec TARGET_SCORE (score (gameState (deliver cs g))))
      as [Hle|Hlt].
    + cbn [win status score]. done.
    + rewrite Hs, Hp. done.
Qed.

Lemma reachable_roundInvariant g : reachable g -> roundInvariant g.
Proof.
  induction 1 as [|g now e _ IH _|g now cs _ IH _].
  - unfold roundInvariant. cbn. done.
  - by apply roundInvariant_step.
  - by apply roundInvariant_recognized.
Qed.

Lemma reachable_run (es : list (Z * Event)) g :
  reachable g -> reachable (run g es).
Proof.
  revert g. induction es as [|[now e] es IH]; intros g Hg; [done|].
  rewrite run_cons. apply IH. by apply reachable_step.
Qed.





(** The status [loading] is never taken.  An idle game is a clean slate:
    score 0, the full time, an empty history.  A failed game has no time
    left.  And outside idle a difficulty has been chosen. *)
Theorem status_shapes g :
  reachable g ->
  status (gameState g) <> loading
  /\ (status (gameState g) = idle ->
      score (gameState g) = 0%N /\ timeLeft (gameState g) = 60%Z
      /\ spokenStatements g = [])
  /\ (status (gameState g) = failed -> timeLeft (gameState g) = 0%Z)
  /\ (status (gameState g) <> idle -> selectedDifficulty g <> None).
Proof.
  intros Hg. pose proof (reachable_roundInvariant g Hg) as Hinv.
  unfold roundInvariant in Hinv.
  assert (Hout : status (gameState g) <> idle -> selectedDifficulty g <> None).
  { intros Hs.
    assert (Hd : hasDifficulty g = true).
    { destruct (status (gameState g)); try done.
      - by destruct Hinv as (_ & _ & _ & Hd).
      - by destruct Hinv as (_ & _ & _ & Hd).
      - by destruct Hinv as (_ & _ & _ & _ & Hd). }
    unfold hasDifficulty in Hd. by destruct (selectedDifficulty g). }
  split; [|split; [|split; [|exact Hout]]].
  - intros Hs. by rewrite Hs in Hinv.
  - intros Hs. rewrite Hs in Hinv. by destruct Hinv as (-> & -> & -> & _).
  - intros Hs. rewrite Hs in Hinv. by destruct Hinv as (_ & -> & _).
Qed.

Lemma status_shapes_witness :
  let g := run initial [ (0%Z, DifficultySelected Easy fallback);
                         (1000%Z, StartClicked);
                         (500%Z, TimerFired);
                         (61000%Z, TimerFired) ] in
  reachable g
  /\ status (gameState g) = failed
  /\ timeLeft (gameState g) = 0%Z
  /\ selectedDifficulty g <> None.
Proof.
  intros g.
  assert (Hg : reachable g) by (apply reachable_run, reachable_initial).
  assert (Hs : status (gameState g) = failed) by (vm_compute; reflexivity).
  split; [exact Hg|]. split; [exact Hs|].
  destruct (status_shapes g Hg) as (_ & _ & Hf & Hd).
  split; [by apply Hf|]. apply Hd. rewrite Hs. discriminate.
Defined.

Lemma spokenStatements_step g now e :
  inRound e = true ->
  exists more,
    spokenStatements (step g now e) = spokenStatements g ++ more
    /\ length more <= statementEvents [(now, e)].
Proof.
  intros He. unfold step. destruct (wired g e).
  - rewrite spokenStatements_render.
    destruct e as [| | |statement m| | |]; try discriminate; cbn.
    + exists []. rewrite app_nil_r. split; [done|]. cbn. lia.
    + eexists. split; [reflexivity|]. cbn. lia.
    + exists []. rewrite app_nil_r. split; [|cbn; lia].
      by destruct (timerRef g).
  - exists []. rewrite app_nil_r. split; [done|]. cbn. lia.
Qed.

(** The history of statements is append-only during a round: a run of
    round events leaves the statements that were there, in place, and
    adds at most one for each statement event.  Every other event that
    takes effect (a start, a retry, a new twister) empties it. *)
Theorem history_append_only_in_round g (es : list (Z * Event)) now e :
  (Forall (fun te => inRound (snd te) = true) es ->
   exists more,
     spokenStatements (run g es) = spokenStatements g ++ more
     /\ length more <= statementEvents es)
  /\ (inRound e = false -> wired g e = true ->
      spokenStatements (step g now e) = []).
Proof.
  split.
  - intros Hes. revert g.
    induction Hes as [|[t e'] es He _ IH]; intros g.
    + exists []. by rewrite app_nil_r.
    + rewrite run_cons. destruct (IH (step g t e')) as (more & Hm & Hl).
      destruct (spokenStatements_step g t e' He) as (one & Ho & Hl1).
      exists (one ++ more). rewrite Hm, Ho, <- app_assoc.
      split; [done|]. rewrite length_app.
      unfold statementEvents in *. cbn [List.filter snd] in *.
      destruct e'; cbn in *; lia.
  - intros He Hw. unfold step. rewrite Hw, spokenStatements_render.
    destruct e; try discriminate; done.
Qed.

Lemma history_append_only_in_round_witness :
  let g := run initial [ (0%Z, DifficultySelected Easy fallback);
                         (1000%Z, StartClicked);
                         (2000%Z, StatementSpoken (js "red lolly") false) ] in
  let es := [ (2500%Z, TimerFired);
              (3000%Z, StatementSpoken (js "red lorry yellow lorry") true);
              (3000%Z, Matched) ] in
  List.map text (spokenStatements (run g es))
  = [js "red lolly"; js "red lorry yellow lorry"]
  /\ spokenStatements (step (run g es) 9000 StartClicked) = spokenStatements (run g es)
  /\ (exists more,
        spokenStatements (run g es) = spokenStatements g ++ more
        /\ length more <= statementEvents es).
Proof.
  intros g es. split; [vm_compute; reflexivity|].
  split; [vm_compute; reflexivity|].
  apply (history_append_only_in_round g es 0%Z Matched).
  subst es. repeat constructor.
Defined.

(** The panel lists no more than the ten latest statements, as they
    stand at the end of the history, and all of them while the round is
    being played and there are ten or fewer. *)
Theorem shown_statements_latest_ten g :
  length (shownStatements g) <= 10
  /\ (exists older, spokenStatements g = older ++ shownStatements g)
  /\ (hasDifficulty g = true -> status (gameState g) = playing ->
      length (shownStatements g) = Nat.min 10 (length (spokenStatements g))).
Proof.
  assert (Hten : forall l : list SpokenStatement,
             length (lastTen l) = Nat.min 10 (length l)
             /\ exists older, l = older ++ lastTen l).
  { intros l. unfold lastTen. split.
    - rewrite List.length_skipn. lia.
    - exists (List.firstn (length l - 10) l). by rewrite List.firstn_skipn. }
  unfold shownStatements.
  destruct (hasDifficulty g && Status_eqb (status (gameState g)) playing
            && (0 <? length (spokenStatements g))) eqn:Hc.
  - destruct (Hten (spokenStatements g)) as [Hl Hs].
    split; [lia|]. split; [exact Hs|]. by intros _ _.
  - split; [cbn; lia|]. split; [exists (spokenStatements g); by rewrite app_nil_r|].
    intros Hd Hp. rewrite Hd, Hp in Hc. cbn in Hc.
    destruct (spokenStatements g); [done|discriminate].
Qed.

Lemma shown_statements_latest_ten_witness :
  let g := run initial
             ([ (0%Z, DifficultySelected Easy fallback); (1000%Z, StartClicked) ]
              ++ List.map (fun t => (t, StatementSpoken (js "red lolly") false))
                   [2000; 2100; 2200; 2300; 2400; 2500; 2600; 2700; 2800;
                    2900; 3000; 3100]%Z) in
  hasDifficulty g = true
  /\ status (gameState g) = playing
  /\ length (spokenStatements g) = 12
  /\ length (shownStatements g) = 10.
Proof.
  intros g. split; [reflexivity|]. split; [vm_compute; reflexivity|].
  split; [vm_compute; reflexivity|].
  destruct (shown_statements_latest_ten g) as (_ & _ & ->);
    [reflexivity|vm_compute; reflexivity|vm_compute; reflexivity].
Defined.

Lemma checkMatch_empty_target (statement : jsstring) :
  checkMatch [] statement = false.
Proof. reflexivity. Qed.

Lemma loop_no_match (props : Props) (now : N)
    (rs : list SpeechRecognitionResult) (l : Loop) :
  matchesReported (calls (List.fold_left (resultStep props [] now) rs l))
  = matchesReported (calls l).
Proof.
  revert l. induction rs as [|r rs IH]; intros l; [done|].
  cbn [List.fold_left]. rewrite IH.
  destruct (resultStep_cases props [] now l r)
    as [(-> & _) | (_ & _ & _ & -> & _)]; [done|].
  rewrite checkMatch_empty_target, app_nil_r, matchesReported_app.
  destruct (hasOnStatementSpoken props); cbn; lia.
Qed.

(** A twister without a [text] gives the round the empty target phrase,
    and against the empty target no event of the recognizer ever reports
    a match: such a round cannot be won. *)
Theorem twister_without_text_unwinnable g (twister : Json)
    (props : Props) (st : State) (now : N) (event : SpeechRecognitionEvent) :
  currentTwister (gameState g) = Some twister ->
  getField (js "text") twister = None ->
  normalizedTargetRef st = normalize [] ->
  targetPhraseProp g = JString []
  /\ matchesReported (snd (handleResult props st now event)) = 0.
Proof.
  intros Htw Hf Ht. unfold targetPhraseProp. rewrite Htw, Hf.
  split; [done|]. unfold handleResult.
  destruct (isMountedRef st); [|done]. cbn [negb snd].
  rewrite Ht. change (normalize []) with (@nil N). by rewrite loop_no_match.
Qed.

Lemma twister_without_text_unwinnable_witness :
  let twister := JObject [(js "phrase", JString (js "She sells sea shells."))] in
  let g := step initial 0 (DifficultySelected Easy twister) in
  let st := mounted [] in
  currentTwister (gameState g) = Some twister
  /\ targetPhraseProp g = JString []
  /\ matchesReported
       (snd (handleResult {| hasOnStatementSpoken := true |} st 4200
               (finalUtterance (js "She sells sea shells")))) = 0.
Proof.
  intros twister g st. split; [reflexivity|].
  apply (twister_without_text_unwinnable g twister); reflexivity.
Defined.

End Game.
